(** * A fully associative cache simulator (sim.c): model and properties

    The development follows [src/sim.c]:

    - section 3 of the source, the utility functions [htoi], [getBinary],
      [formatBinary], [btoi] and [parseMemoryAddress], on C strings and
      32-bit unsigned integers;
    - section 5 of the source, the cache functions [createCache],
      [readFromCache] and [writeToCache], on the [Cache_] and [Block_]
      structs;
    - section 4 of the source, [main]: the replay loop as a fold over the
      parsed trace, then the function itself on its arguments and on the
      lines of the trace file.

    Conventions.  An [unsigned int] is a [Z] in [0, 2^32) and its
    arithmetic is reduced modulo [2^32] where the source can wrap.  An [int]
    counter of the cache is a [Z]: signed overflow is undefined in C, and
    [counters_bounded] below shows that a run of less than [2^31] accesses
    stays clear of it.  A C string is a [string]; its terminating NUL is the
    end of the Rocq string, and a NUL character inside one ends it as well.
    Pointers that the source dereferences are taken to be valid: a [Block*]
    slot of the cache is an [option Block] ([None] for the NULL pointer), and
    [malloc] is taken to succeed (the source asserts it). *)

From Stdlib Require Import ZArith Ascii String Lia.
From stdpp Require Import base list strings.

#[local] Open Scope Z_scope.

(** ** 3. Utility functions *)

Module Util.

(** The value of a [char] as an [int]. *)
Definition char_code (c : ascii) : Z := Z.of_N (N_of_ascii c).

(** Reduction to the range of [unsigned int]. *)
Definition u32 (z : Z) : Z := z mod 2 ^ 32.

(** [tolower] of <ctype.h> in the C locale. *)
Definition tolower (c : Z) : Z :=
  if (65 <=? c) && (c <=? 90) then c + 32 else c.

(** One turn of the [while] loop of [htoi] on the character [c]:
    the accumulator is multiplied by 16 first, whatever [c] is, and the
    value of [c] is added when [c] is a decimal digit or a letter a-f or
    A-F. *)
Definition htoi_step (result : Z) (c : ascii) : Z :=
  let ch := char_code c in
  let result := u32 (result * 16) in
  if (48 <=? ch) && (ch <=? 57) then
    u32 (result + (ch - 48))
  else if (97 <=? tolower ch) && (tolower ch <=? 102) then
    u32 (result + (tolower ch - 97) + 10)
  else result.

(** The [while (str[i] != '\0')] loop of [htoi]. *)
Fixpoint htoi_loop (result : Z) (str : string) : Z :=
  match str with
  | EmptyString => result
  | String c rest =>
      if (char_code c =? 0) then result
      else htoi_loop (htoi_step result c) rest
  end.

(** [htoi]: an optional leading "0x" is stepped over, then the loop runs
    on the rest. *)
Definition htoi (str : string) : Z :=
  match str with
  | String "0" (String "x" rest) => htoi_loop 0 rest
  | _ => htoi_loop 0 str
  end.

(** The character [getBinary] stores for bit [i] of [num]:
    [(num == ((1 << i) | num)) ? '1' : '0']. *)
Definition bit_char (num : Z) (i : Z) : ascii :=
  if (num =? Z.lor (Z.shiftl 1 i) num) then "1"%char else "0"%char.

(** The characters of bits [k-1] down to [0], most significant first. *)
Fixpoint bits_below (num : Z) (k : nat) : string :=
  match k with
  | O => EmptyString
  | S k' => String (bit_char num (Z.of_nat k')) (bits_below num k')
  end.

(** [getBinary]: the 32 characters [bstring[32 - 1 - i]], for
    [i = 0 .. 31]. *)
Definition getBinary (num : Z) : string := bits_below num 32.

(** *** The conversion as the specification words it

    "Characters that are not hexadecimal digits are skipped: the result is
    the value of the hex string obtained by deleting every unrecognized
    character from the input (after the optional leading 0x)."  These
    definitions follow that sentence, not the source; [htoi] above is the
    source. *)

(** The characters [htoi] recognizes: 0-9, a-f and A-F. *)
Definition recognized (c : ascii) : bool :=
  let ch := char_code c in
  ((48 <=? ch) && (ch <=? 57))
  || ((97 <=? ch) && (ch <=? 102))
  || ((65 <=? ch) && (ch <=? 70)).

Definition digit_value (c : ascii) : Z :=
  let ch := char_code c in
  if (48 <=? ch) && (ch <=? 57) then ch - 48
  else if (97 <=? ch) && (ch <=? 102) then ch - 97 + 10
  else ch - 65 + 10.

(** The input without its unrecognized characters. *)
Fixpoint delete_unrecognized (str : string) : string :=
  match str with
  | EmptyString => EmptyString
  | String c rest =>
      if recognized c then String c (delete_unrecognized rest)
      else delete_unrecognized rest
  end.

(** The value of a string of hexadecimal digits, as an [unsigned int]. *)
Fixpoint hex_value (acc : Z) (digits : string) : Z :=
  match digits with
  | EmptyString => acc
  | String c rest => hex_value (u32 (acc * 16 + digit_value c)) rest
  end.

(** Every character of the string is recognized. *)
Fixpoint all_recognized (str : string) : bool :=
  match str with
  | EmptyString => true
  | String c rest => recognized c && all_recognized rest
  end.

Definition spec_htoi (str : string) : Z :=
  match str with
  | String "0" (String "x" rest) => hex_value 0 (delete_unrecognized rest)
  | _ => hex_value 0 (delete_unrecognized str)
  end.

Section Widths.

(** [TAG], [INDEX] and [OFFSET] are macros of [sim.h]; the model takes
    them as parameters.  The source reads [bstring[0 .. TAG+INDEX+OFFSET)]
    of a string of 32 characters and fills 34 characters of the result, so
    it is defined for [TAG + INDEX + OFFSET = 32] only; the model gives the
    fields that exist for any other widths. *)
Variables TAG INDEX OFFSET : nat.

(** [formatBinary]: the three fields of the binary string, separated by
    single spaces. *)
Definition formatBinary (bstring : string) : string :=
  (substring 0 TAG bstring
   +:+ " "
   +:+ substring TAG INDEX bstring
   +:+ " "
   +:+ substring (TAG + INDEX) OFFSET bstring)%string.

(** The tag of an address, as [readFromCache] and [writeToCache] compute
    it: the first [TAG] characters of the formatted binary string of the
    address. *)
Definition address_tag (address : string) : string :=
  let dec := htoi address in
  let bstring := getBinary dec in
  let bformatted := formatBinary bstring in
  substring 0 TAG bformatted.

End Widths.

End Util.

(** ** 2. Structs *)

Module Sim.

Import Util.

(** [struct Block_]: the valid flag, the tag string and the dirty flag. *)
Record Block : Type := mkBlock {
  valid : Z;
  tag : string;
  dirty : Z
}.

(** [struct Cache_].  The field [numLines] of the source is left out: no
    function of the source writes or reads it, every loop recomputes
    [cache_size / block_size]. *)
Record Cache : Type := mkCache {
  hits : Z;
  misses : Z;
  reads : Z;
  writes : Z;
  cache_size : Z;
  block_size : Z;
  write_policy : Z;
  blocks : list (option Block)
}.

(** The bound [cache->cache_size / cache->block_size] of every loop over
    the blocks; [int] division truncates toward zero, and a loop with a
    negative bound makes no turn.  (A block size of 0, which [createCache]
    refuses, is a division by zero in the source and gives no line here.) *)
Definition lines (cache : Cache) : nat :=
  Z.to_nat (cache_size cache ÷ block_size cache).

(** ** 5. Cache functions *)

(** [createCache]: NULL ([None]) when the guard on the arguments fails,
    else a cache with zeroed counters and [cache_size / block_size] NULL
    slots. *)
Definition createCache (cache_size block_size write_policy : Z)
  : option Cache :=
  if (cache_size <=? 0) || (block_size <=? 0)
     || (negb (write_policy =? 0) && negb (write_policy =? 1))
  then None
  else Some {| hits := 0; misses := 0; reads := 0; writes := 0;
               cache_size := cache_size; block_size := block_size;
               write_policy := write_policy;
               blocks := replicate (Z.to_nat (cache_size ÷ block_size)) None |}.

(** [for (i = start; i < start + n; i++) if (p (blocks[i])) return i]:
    the index of the first slot satisfying [p], if any.  An index beyond
    the array (which a cache made by [createCache] never has: see
    [wf_cache]) is passed over. *)
Fixpoint scan (p : option Block → bool) (blocks : list (option Block))
    (start n : nat) : option nat :=
  match n with
  | O => None
  | S n' =>
      match blocks !! start with
      | Some slot => if p slot then Some start else scan p blocks (S start) n'
      | None => scan p blocks (S start) n'
      end
  end.

(** The test of the first loop:
    [block != NULL && block->valid == 1 && strcmp(block->tag, tag) == 0]. *)
Definition tag_match (t : string) (slot : option Block) : bool :=
  match slot with
  | Some block => (valid block =? 1) && String.eqb (tag block) t
  | None => false
  end.

(** The test of the second loop: [cache->blocks[i] == NULL]. *)
Definition is_null (slot : option Block) : bool :=
  match slot with
  | Some _ => false
  | None => true
  end.

(** The three ways an access ends, one per [return] after the argument
    guard: the tag was found ([return 1] inside the first loop), the new
    block was stored in an empty slot ([return 1] inside the second loop),
    or no slot was empty and the new block was freed ([return 0]). *)
Inductive outcome : Type := Hit | MissInstalled | MissDropped.

#[export] Instance outcome_eq_dec : EqDecision outcome.
Proof. solve_decision. Defined.

(** The [int] the source returns at each of them. *)
Definition return_value (o : outcome) : Z :=
  match o with
  | Hit | MissInstalled => 1
  | MissDropped => 0
  end.

(** [cache->hits++] *)
Definition incr_hits (c : Cache) : Cache :=
  mkCache (hits c + 1) (misses c) (reads c) (writes c)
          (cache_size c) (block_size c) (write_policy c) (blocks c).

(** [cache->writes++] *)
Definition incr_writes (c : Cache) : Cache :=
  mkCache (hits c) (misses c) (reads c) (writes c + 1)
          (cache_size c) (block_size c) (write_policy c) (blocks c).

(** [cache->blocks[i] = newBlock; cache->misses++; cache->reads++;] *)
Definition install (c : Cache) (i : nat) (newBlock : Block) : Cache :=
  mkCache (hits c) (misses c + 1) (reads c + 1) (writes c)
          (cache_size c) (block_size c) (write_policy c)
          (<[i := Some newBlock]> (blocks c)).

(** [block->dirty = 1], for the block the slot [i] points to. *)
Definition mark_dirty (c : Cache) (i : nat) : Cache :=
  match blocks c !! i with
  | Some (Some block) =>
      mkCache (hits c) (misses c) (reads c) (writes c)
              (cache_size c) (block_size c) (write_policy c)
              (<[i := Some (mkBlock (valid block) (tag block) 1)]> (blocks c))
  | _ => c
  end.

Section Access.

Variables TAG INDEX OFFSET : nat.

(** [readFromCache], past its guard against NULL arguments. *)
Definition readFromCache (cache : Cache) (address : string)
  : Cache * outcome :=
  let t := address_tag TAG INDEX OFFSET address in
  match scan (tag_match t) (blocks cache) 0 (lines cache) with
  | Some _ => (incr_hits cache, Hit)
  | None =>
      let newBlock := {| valid := 1; dirty := 0; tag := t |} in
      match scan is_null (blocks cache) 0 (lines cache) with
      | Some i => (install cache i newBlock, MissInstalled)
      | None => (cache, MissDropped)
      end
  end.

(** [writeToCache], past its guard against NULL arguments. *)
Definition writeToCache (cache : Cache) (address : string)
  : Cache * outcome :=
  let t := address_tag TAG INDEX OFFSET address in
  match scan (tag_match t) (blocks cache) 0 (lines cache) with
  | Some i =>
      let cache := if write_policy cache =? 0 then incr_writes cache
                   else cache in
      let cache := mark_dirty cache i in
      (incr_hits cache, Hit)
  | None =>
      let newBlock := {| valid := 1; dirty := 1; tag := t |} in
      match scan is_null (blocks cache) 0 (lines cache) with
      | Some i => (install cache i newBlock, MissInstalled)
      | None => (cache, MissDropped)
      end
  end.

(** The two modes of a trace line: [main] calls [readFromCache] on 'R'
    and [writeToCache] on 'W' (and gives up on any other mode). *)
Inductive mode : Type := R | W.

Definition access (cache : Cache) (m : mode) (address : string)
  : Cache * outcome :=
  match m with
  | R => readFromCache cache address
  | W => writeToCache cache address
  end.

(** The [while] loop of [main] over the access lines of the trace; the
    outcomes are collected on the way. *)
Fixpoint replay (cache : Cache) (trace : list (mode * string))
  : Cache * list outcome :=
  match trace with
  | [] => (cache, [])
  | (m, address) :: rest =>
      let (cache1, o) := access cache m address in
      let (cache2, os) := replay cache1 rest in
      (cache2, o :: os)
  end.

(** [main], from [createCache] to the end of the trace. *)
Definition simulate (cache_size block_size write_policy : Z)
    (trace : list (mode * string)) : option (Cache * list outcome) :=
  match createCache cache_size block_size write_policy with
  | Some cache => Some (replay cache trace)
  | None => None
  end.

End Access.

(** What the memory-write counter gains in an access of mode [m] and
    outcome [o]: [cache->writes++] stands in one place of the source, the
    hit branch of [writeToCache], under [cache->write_policy == 0]. *)
Definition writes_gain (policy : Z) (m : mode) (o : outcome) : Z :=
  match m, o with
  | W, Hit => if policy =? 0 then 1 else 0
  | _, _ => 0
  end.

(** ** Predicates of the properties *)

(** The array of slots has the length the loops assume. *)
Definition wf_cache (c : Cache) : Prop :=
  length (blocks c) = lines c.

(** No two slots hold valid blocks of equal tags. *)
Definition unique_tags (c : Cache) : Prop :=
  ∀ (i j : nat) (b1 b2 : Block),
    blocks c !! i = Some (Some b1) →
    blocks c !! j = Some (Some b2) →
    valid b1 = 1 → valid b2 = 1 →
    tag b1 = tag b2 → i = j.

(** Some slot holds a valid block of tag [t]. *)
Definition resident (c : Cache) (t : string) : Prop :=
  ∃ (i : nat) (b : Block),
    blocks c !! i = Some (Some b) ∧ valid b = 1 ∧ tag b = t.

(** The number of [o] among the outcomes. *)
Fixpoint count_outcome (o : outcome) (os : list outcome) : Z :=
  match os with
  | [] => 0
  | x :: rest => (if decide (x = o) then 1 else 0) + count_outcome o rest
  end.

(** ** Sample data

    A trace in the format of the README of the repository, and a cache of
    one line that already holds the block of address 0. *)
Definition sample_trace : list (mode * string) :=
  [(W, "0x00000001"); (W, "0x00000001"); (R, "0x1A2B3C4D");
   (R, "0xFFFFFFFF"); (W, "0x5E6F7A8B")]%string.

Definition full_cache (policy : Z) : Cache :=
  mkCache 0 1 1 0 4 4 policy [Some (mkBlock 1 "000000000000000000" 0)].

End Sim.

(** ** 3. Utility functions, continued: [btoi] and [parseMemoryAddress] *)

Module Decode.

Import Util.

(** The characters of a C string: those before the first NUL. *)
Fixpoint until_nul (str : string) : string :=
  match str with
  | EmptyString => EmptyString
  | String c rest =>
      if char_code c =? 0 then EmptyString else String c (until_nul rest)
  end.

(** No character of the string is NUL. *)
Fixpoint nul_free (str : string) : bool :=
  match str with
  | EmptyString => true
  | String c rest => negb (char_code c =? 0) && nul_free rest
  end.

(** [for (b = 1, m = len; m > k; m--) b *= 2;] with [n = len - k]
    turns. *)
Fixpoint doublings (n : nat) : Z :=
  match n with
  | O => 1
  | S n' => doublings n' * 2
  end.

(** The [for (k = 0; k <= len; k++)] loop of [btoi], from the character
    at [k] on: [len - k] characters follow it.  A character other than '0'
    and '1' ends the function with 0. *)
Fixpoint btoi_loop (sum : Z) (bin : string) : Z :=
  match bin with
  | EmptyString => sum
  | String c rest =>
      let n := char_code c - 48 in
      if (n >? 1) || (n <? 0) then 0
      else btoi_loop (sum + n * doublings (String.length rest)) rest
  end.

(** [btoi].  The source computes in [int]: the model agrees with it on
    strings of at most 31 characters, where neither [b] nor [sum] can
    overflow. *)
Definition btoi (bin : string) : Z := btoi_loop 0 (until_nul bin).

(** The characters of [htoi] that leave a result of 0 at 0: the digit 0
    and the characters it does not recognize. *)
Definition ignorable (c : ascii) : bool :=
  negb (char_code c =? 0)
  && (negb (recognized c) || (char_code c =? 48)).

Fixpoint all_ignorable (str : string) : bool :=
  match str with
  | EmptyString => true
  | String c rest => ignorable c && all_ignorable rest
  end.

(** The string with the digit 0 in place of every unrecognized
    character. *)
Fixpoint zero_fill (str : string) : string :=
  match str with
  | EmptyString => EmptyString
  | String c rest =>
      String (if recognized c then c else "0"%char) (zero_fill rest)
  end.

(** Every character of the string is '0' or '1'. *)
Fixpoint binary (str : string) : bool :=
  match str with
  | EmptyString => true
  | String c rest =>
      ((char_code c =? 48) || (char_code c =? 49)) && binary rest
  end.

Section Widths.

Variables TAG INDEX OFFSET : nat.

(** What [parseMemoryAddress] prints after its debugging lines: the three
    fields of the address, each as a string of bits and as the integer
    [btoi] makes of it. *)
Record fields : Type := mkFields {
  tag_bits : string;
  tag_value : Z;
  index_bits : string;
  index_value : Z;
  offset_bits : string;
  offset_value : Z
}.

Definition parseMemoryAddress (address : string) : fields :=
  let dec := htoi address in
  let bstring := getBinary dec in
  let bformatted := formatBinary TAG INDEX OFFSET bstring in
  let tag := substring 0 TAG bformatted in
  let index := substring (TAG + 1) INDEX bformatted in
  let offset := substring (INDEX + TAG + 2) OFFSET bformatted in
  {| tag_bits := tag; tag_value := btoi tag;
     index_bits := index; index_value := btoi index;
     offset_bits := offset; offset_value := btoi offset |}.

End Widths.

End Decode.

(** ** 4. Main function *)

Module Main.

Import Util Sim Decode.

(** How [main] ends.  [Undefined] stands for the runs in which the source
    leaves the contents of a string or dereferences NULL: a line without
    the two fields [main] expects, or statistics asked of a cache that
    [createCache] refused. *)
Inductive main_result : Type :=
  | Usage
  | InvalidPolicy
  | CannotOpen
  | BadMode (counter : Z)
  | Statistics (hits misses reads writes : Z)
  | Undefined.

(** The [int] that [main] returns. *)
Definition exit_code (r : main_result) : option Z :=
  match r with
  | Statistics _ _ _ _ => Some 1
  | Undefined => None
  | _ => Some 0
  end.

(** [while (buffer[i] != ' ') i++;]: the characters after the first
    space, if the line has one. *)
Fixpoint after_space (line : string) : option string :=
  match line with
  | EmptyString => None
  | String c rest =>
      if char_code c =? 32 then Some rest else after_space rest
  end.

(** [address[j-1] = 0]: the string without its last character. *)
Definition drop_last (str : string) : string :=
  substring 0 (String.length str - 1) str.

(** The mode and the address that [main] takes from a line: the mode is
    the character after the first space, the address is what follows the
    mode, less the last character of the line.  The address buffer has 100
    characters. *)
Definition parse_line (buffer : string) : option (ascii * string) :=
  match after_space (until_nul buffer) with
  | Some (String mode rest) =>
      if (1 <=? String.length rest)%nat && (String.length rest <=? 100)%nat
      then Some (mode, drop_last rest)
      else None
  | _ => None
  end.

(** A call of [readFromCache] or [writeToCache] with the guard they start
    with: on a NULL cache they report an error and return 0. *)
Definition guarded (f : Cache → string → Cache * outcome)
    (cache : option Cache) (address : string) : option Cache * Z :=
  match cache with
  | Some c => let (c', o) := f c address in (Some c', return_value o)
  | None => (None, 0)
  end.

(** Whether [buffer[0] != '#'] fails. *)
Definition is_comment (buffer : string) : bool :=
  match buffer with
  | String c _ => char_code c =? 35
  | EmptyString => false
  end.

Section Program.

Variables TAG INDEX OFFSET : nat.
Variables CACHE_SIZE BLOCK_SIZE : Z.

(** The [while (fgets (...) != NULL)] loop of [main] over the buffers that
    [fgets] delivers, and the final [printf] of the four counters. *)
Fixpoint main_loop (cache : option Cache) (counter : Z)
    (buffers : list string) : main_result :=
  match buffers with
  | [] =>
      match cache with
      | Some c => Statistics (hits c) (misses c) (reads c) (writes c)
      | None => Undefined
      end
  | buffer :: rest =>
      if is_comment buffer then main_loop cache counter rest
      else
        match parse_line buffer with
        | None => Undefined
        | Some (mode, address) =>
            if char_code mode =? 82 then
              main_loop
                (guarded (readFromCache TAG INDEX OFFSET) cache address).1
                (counter + 1) rest
            else if char_code mode =? 87 then
              main_loop
                (guarded (writeToCache TAG INDEX OFFSET) cache address).1
                (counter + 1) rest
            else BadMode counter
        end
  end.

(** [main]: [argv] with the name of the program first, and what
    [fopen (argv[2], "r")] gives: [None] when it fails, else the buffers
    that the calls of [fgets] deliver. *)
Definition main (argv : list string) (file : option (list string))
  : main_result :=
  match argv with
  | _ :: policy :: _ :: _ =>
      if String.eqb policy "-h" then Usage
      else
        let write_policy :=
          if String.eqb policy "wt" then Some 0
          else if String.eqb policy "wb" then Some 1
          else None in
        match write_policy with
        | None => InvalidPolicy
        | Some wp =>
            match file with
            | None => CannotOpen
            | Some buffers =>
                main_loop (createCache CACHE_SIZE BLOCK_SIZE wp) 0 buffers
            end
        end
  | _ => Usage
  end.

End Program.

(** A line of a trace as the source reads it: a first field without a
    space, then the mode, then the address, each after one space, and the
    end of line. *)
Definition trace_line (first : string) (m : mode) (address : string)
  : string :=
  (first +:+ " " +:+ (match m with R => "R" | W => "W" end)
   +:+ " " +:+ address +:+ String (ascii_of_nat 10) "")%string.

(** The letter of a mode. *)
Definition mode_char (m : mode) : ascii :=
  match m with R => "R"%char | W => "W"%char end.

(** No character of the string is a space. *)
Fixpoint space_free (str : string) : bool :=
  match str with
  | EmptyString => true
  | String c rest => negb (char_code c =? 32) && space_free rest
  end.

(** The first field and the address make a line that [main] reads as
    meant: no space and no NUL in the first field, which is not a comment
    mark; no NUL in the address, which fits the address buffer with the
    space before it and the end of line after it. *)
Definition well_formed (first address : string) : bool :=
  space_free first && nul_free first && negb (is_comment first)
  && nul_free address && (String.length address <=? 98)%nat.

(** The lines of a trace, and the accesses they stand for. *)
Definition trace_lines (entries : list (string * mode * string))
  : list string :=
  map (λ e, trace_line e.1.1 e.1.2 e.2) entries.

Definition trace_accesses (entries : list (string * mode * string))
  : list (mode * string) :=
  map (λ e, (e.1.2, e.2)) entries.

Definition all_well_formed (entries : list (string * mode * string))
  : bool :=
  forallb (λ e, well_formed e.1.1 e.2) entries.

End Main.

(** ** Predicates of the further properties *)

Module Inv.

Import Util Sim.

(** The occupied slots come first: [n] blocks, then NULL slots only. *)
Definition filled_to (c : Cache) (n : nat) : Prop :=
  (n ≤ length (blocks c))%nat ∧
  (∀ i, (i < n)%nat → ∃ b, blocks c !! i = Some (Some b)) ∧
  (∀ i, (n ≤ i < length (blocks c))%nat → blocks c !! i = Some None).

(** The number of accesses of mode [W] that ended as [Hit]. *)
Fixpoint count_write_hits (trace : list (mode * string))
    (os : list outcome) : Z :=
  match trace, os with
  | (W, _) :: trace', Hit :: os' => 1 + count_write_hits trace' os'
  | _ :: trace', _ :: os' => count_write_hits trace' os'
  | _, _ => 0
  end.

(** The tags in the slots, in the order of the slots (the empty string for
    an empty slot). *)
Definition slot_tags (c : Cache) : list string :=
  map (λ slot, match slot with Some b => tag b | None => ""%string end)
      (blocks c).

(** The state of a cache with room for the tags of [l], all of whose
    blocks are valid and have their tags in [l]. *)
Definition tags_within (l : list string) (c : Cache) : Prop :=
  wf_cache c ∧ unique_tags c ∧ (length l ≤ length (blocks c))%nat ∧
  ∀ i b, blocks c !! i = Some (Some b) → valid b = 1 ∧ tag b ∈ l.

End Inv.

(** * Properties *)

Import Util Sim.

(** ** The utility functions on examples *)

Example htoi_1A2B3C4D : htoi "0x1A2B3C4D" = 439041101.
Proof. reflexivity. Qed.

Example htoi_upper_lower : htoi "0xfFfFfFfF" = 4294967295.
Proof. reflexivity. Qed.

Example htoi_wraps : htoi "0x123456789" = 591751049.
Proof. reflexivity. Qed.

Example getBinary_5 :
  getBinary 5 = "00000000000000000000000000000101"%string.
Proof. reflexivity. Qed.

Example formatBinary_example :
  formatBinary 18 12 2 (getBinary (htoi "0x0023AF7C")) =
  "000000000010001110 101111011111 00"%string.
Proof. reflexivity. Qed.

Example address_tag_example :
  address_tag 18 12 2 "0x00000004" = "000000000000000000"%string.
Proof. reflexivity. Qed.

Example spec_htoi_agrees_on_hex :
  spec_htoi "0x1A2B3C4D" = htoi "0x1A2B3C4D".
Proof. reflexivity. Qed.

Example getBinary_length (num : Z) : String.length (getBinary num) = 32%nat.
Proof. reflexivity. Qed.

(** ** [htoi] on recognized and unrecognized characters *)

(** A recognized character contributes its digit value. *)
Lemma htoi_step_recognized (result : Z) (c : ascii) :
  recognized c = true →
  htoi_step result c = u32 (result * 16 + digit_value c).
Proof.
  unfold htoi_step, recognized, digit_value, tolower, u32.
  set (ch := char_code c). intros Hrec.
  repeat match goal with
         | H : context [?a <=? ?b] |- _ => destruct (Z.leb_spec a b)
         | |- context [?a <=? ?b] => destruct (Z.leb_spec a b)
         end; simpl in *; try discriminate; try lia;
    rewrite <- ?Z.add_assoc, Zplus_mod_idemp_l; f_equal; lia.
Qed.

(** An unrecognized character contributes the digit 0: it is not added,
    but the result has been multiplied by 16 already. *)
Lemma htoi_step_unrecognized (result : Z) (c : ascii) :
  recognized c = false →
  htoi_step result c = u32 (result * 16).
Proof.
  unfold htoi_step, recognized, tolower.
  set (ch := char_code c). intros Hrec.
  repeat match goal with
         | H : context [?a <=? ?b] |- _ => destruct (Z.leb_spec a b)
         | |- context [?a <=? ?b] => destruct (Z.leb_spec a b)
         end; simpl in *; try discriminate; try lia; reflexivity.
Qed.

(** On a string of recognized characters the loop of the source computes
    the value of the string. *)
Lemma htoi_loop_hex_value (str : string) (result : Z) :
  all_recognized str = true →
  htoi_loop result str = hex_value result (delete_unrecognized str).
Proof.
  revert result. induction str as [|c rest IH]; intros result; simpl;
    [done|].
  intros [Hc Hrest]%andb_true_iff. rewrite Hc. simpl.
  rewrite <- IH, htoi_step_recognized by done.
  destruct (char_code c =? 0) eqn:Hnul; [|done].
  apply Z.eqb_eq in Hnul. unfold recognized in Hc. rewrite Hnul in Hc.
  discriminate.
Qed.

(** ** The loops over the slots *)

Section Scan.

Variable p : option Block → bool.

Lemma scan_Some (bl : list (option Block)) (n start j : nat) :
  scan p bl start n = Some j →
  (start ≤ j < start + n)%nat ∧ ∃ slot, bl !! j = Some slot ∧ p slot = true.
Proof.
  revert start. induction n as [|n IH]; intros start; simpl; [done|].
  destruct (bl !! start) as [slot|] eqn:Hslot.
  - destruct (p slot) eqn:Hp.
    + intros [= <-]. split; [lia|]. by exists slot.
    + intros H. destruct (IH _ H) as [? ?]. split; [lia|done].
  - intros H. destruct (IH _ H) as [? ?]. split; [lia|done].
Qed.

Lemma scan_None (bl : list (option Block)) (n start j : nat) slot :
  scan p bl start n = None →
  (start ≤ j < start + n)%nat →
  bl !! j = Some slot → p slot = false.
Proof.
  revert start. induction n as [|n IH]; intros start; simpl; [lia|].
  intros Hscan Hj Hlook.
  destruct (decide (j = start)) as [->|Hne].
  - rewrite Hlook in Hscan. by destruct (p slot).
  - destruct (bl !! start) as [slot'|]; [destruct (p slot'); [done|]|];
      (eapply IH; [exact Hscan | lia | exact Hlook]).
Qed.

(** The index found is the first one: no earlier slot satisfies [p]. *)
Lemma scan_first (bl : list (option Block)) (n start j k : nat) slot :
  scan p bl start n = Some j →
  (start ≤ k < j)%nat →
  bl !! k = Some slot → p slot = false.
Proof.
  revert start. induction n as [|n IH]; intros start; simpl; [done|].
  intros Hscan Hk Hlook.
  destruct (decide (k = start)) as [->|Hne].
  - rewrite Hlook in Hscan. destruct (p slot); [|done].
    injection Hscan as <-. lia.
  - destruct (bl !! start) as [slot'|]; [destruct (p slot')|].
    + injection Hscan as <-. lia.
    + eapply IH; [exact Hscan | lia | exact Hlook].
    + eapply IH; [exact Hscan | lia | exact Hlook].
Qed.

End Scan.

Lemma tag_match_true (t : string) (slot : option Block) :
  tag_match t slot = true ↔ ∃ b, slot = Some b ∧ valid b = 1 ∧ tag b = t.
Proof.
  unfold tag_match. split.
  - destruct slot as [b|]; [|done].
    intros [Hv Ht]%andb_true_iff. exists b.
    apply Z.eqb_eq in Hv. apply String.eqb_eq in Ht. done.
  - intros (b & -> & Hv & Ht). apply andb_true_iff. split.
    + by apply Z.eqb_eq.
    + by apply String.eqb_eq.
Qed.

Lemma is_null_true (slot : option Block) : is_null slot = true ↔ slot = None.
Proof. destruct slot; simpl; split; congruence. Qed.

(** ** One access *)

Section OneAccess.

Variables TAG INDEX OFFSET : nat.

#[local] Abbreviation readFromCache := (Sim.readFromCache TAG INDEX OFFSET).
#[local] Abbreviation writeToCache := (Sim.writeToCache TAG INDEX OFFSET).
#[local] Abbreviation access := (Sim.access TAG INDEX OFFSET).
#[local] Abbreviation address_tag := (Util.address_tag TAG INDEX OFFSET).

(** The fields [mark_dirty] leaves alone. *)
Lemma mark_dirty_frame (c : Cache) (i : nat) :
  hits (mark_dirty c i) = hits c ∧ misses (mark_dirty c i) = misses c ∧
  reads (mark_dirty c i) = reads c ∧ writes (mark_dirty c i) = writes c ∧
  cache_size (mark_dirty c i) = cache_size c ∧
  block_size (mark_dirty c i) = block_size c ∧
  write_policy (mark_dirty c i) = write_policy c ∧
  length (blocks (mark_dirty c i)) = length (blocks c).
Proof.
  unfold mark_dirty. destruct (blocks c !! i) as [[b|]|]; simpl;
    rewrite ?length_insert; done.
Qed.

(** The whole effect of an access on the counters and on the shape of the
    cache, by outcome. *)
Lemma access_effect (c : Cache) (m : mode) (address : string) :
  let c' := (access c m address).1 in
  let o := (access c m address).2 in
  hits c' = hits c + (if decide (o = Hit) then 1 else 0) ∧
  misses c' = misses c + (if decide (o = MissInstalled) then 1 else 0) ∧
  reads c' = reads c + (if decide (o = MissInstalled) then 1 else 0) ∧
  writes c' = writes c + writes_gain (write_policy c) m o ∧
  cache_size c' = cache_size c ∧ block_size c' = block_size c ∧
  write_policy c' = write_policy c ∧
  length (blocks c') = length (blocks c).
Proof.
  destruct m; unfold Sim.access, Sim.readFromCache, Sim.writeToCache;
    cbv zeta;
    destruct (scan (tag_match _) _ _ _) as [i|];
    try destruct (scan is_null _ _ _) as [k|]; simpl;
    rewrite ?length_insert; repeat split; try lia.
  all: destruct (write_policy c =? 0);
    pose proof (mark_dirty_frame (incr_writes c) i) as Hw;
    pose proof (mark_dirty_frame c i) as Hc; simpl in *; lia.
Qed.

Lemma access_wf (c : Cache) (m : mode) (address : string) :
  wf_cache c → wf_cache (access c m address).1.
Proof.
  unfold wf_cache, lines.
  pose proof (access_effect c m address) as (_&_&_&_&Hcs&Hbs&_&Hlen).
  cbv zeta in *. rewrite Hlen, Hcs, Hbs. done.
Qed.

(** Marking a block dirty changes neither its valid flag nor its tag. *)
Lemma mark_dirty_lookup (c : Cache) (i k : nat) (b' : Block) :
  blocks (mark_dirty c i) !! k = Some (Some b') →
  ∃ b, blocks c !! k = Some (Some b) ∧ valid b = valid b' ∧ tag b = tag b'.
Proof.
  unfold mark_dirty.
  destruct (blocks c !! i) as [[b|]|] eqn:Hi; simpl; eauto.
  destruct (decide (k = i)) as [->|Hne].
  - rewrite list_lookup_insert_eq by (by eapply lookup_lt_Some).
    intros [= <-]. by exists b.
  - rewrite list_lookup_insert_ne by done. eauto.
Qed.

Lemma mark_dirty_unique (c : Cache) (i : nat) :
  unique_tags c → unique_tags (mark_dirty c i).
Proof.
  intros Hu j k b1 b2 H1 H2 Hv1 Hv2 Ht.
  apply mark_dirty_lookup in H1 as (a1 & H1 & Hva1 & Hta1).
  apply mark_dirty_lookup in H2 as (a2 & H2 & Hva2 & Hta2).
  eapply Hu; eauto; congruence.
Qed.

(** A tag that the first loop did not find is the tag of no valid block. *)
Lemma scan_miss_not_resident (c : Cache) (t : string) :
  wf_cache c →
  scan (tag_match t) (blocks c) 0 (lines c) = None →
  ¬ resident c t.
Proof.
  intros Hwf Hscan (j & b & Hj & Hv & Ht).
  assert (tag_match t (Some b) = false) as Hno.
  { eapply scan_None; [exact Hscan | | exact Hj].
    apply lookup_lt_Some in Hj. unfold wf_cache in Hwf. lia. }
  assert (tag_match t (Some b) = true) as Hyes
    by (apply tag_match_true; eauto).
  congruence.
Qed.

(** Storing a block whose tag is not resident keeps the tags unique. *)
Lemma install_unique (c : Cache) (k : nat) (newBlock : Block) :
  unique_tags c →
  ¬ resident c (tag newBlock) →
  unique_tags (install c k newBlock).
Proof.
  intros Hu Hnew i j b1 b2. unfold install; simpl.
  destruct (decide (i = j)) as [|Hij]; [done|].
  intros H1 H2 Hv1 Hv2 Ht. exfalso.
  destruct (decide (i = k)) as [->|Hik].
  - rewrite list_lookup_insert_ne in H2 by done.
    apply list_lookup_insert_Some in H1 as [(_ & [= <-] & _)|(? & _)];
      [|done].
    apply Hnew. by exists j, b2.
  - rewrite list_lookup_insert_ne in H1 by done.
    destruct (decide (j = k)) as [->|Hjk].
    + apply list_lookup_insert_Some in H2 as [(_ & [= <-] & _)|(? & _)];
        [|done].
      apply Hnew. by exists i, b1.
    + rewrite list_lookup_insert_ne in H2 by done.
      apply Hij. eapply Hu; eauto.
Qed.

Lemma access_unique (c : Cache) (m : mode) (address : string) :
  wf_cache c → unique_tags c → unique_tags (access c m address).1.
Proof.
  intros Hwf Hu.
  destruct m; unfold Sim.access, Sim.readFromCache, Sim.writeToCache;
    cbv zeta;
    destruct (scan (tag_match _) _ _ _) as [i|] eqn:Hhit;
    try destruct (scan is_null _ _ _) as [k|] eqn:Hfree; simpl; try done.
  - apply install_unique; [done|]. by apply scan_miss_not_resident.
  - apply (mark_dirty_unique _ i). by destruct (write_policy c =? 0).
  - apply install_unique; [done|]. by apply scan_miss_not_resident.
Qed.

End OneAccess.

(** ** A run *)

Section Run.

Variables TAG INDEX OFFSET : nat.

#[local] Abbreviation readFromCache := (Sim.readFromCache TAG INDEX OFFSET).
#[local] Abbreviation writeToCache := (Sim.writeToCache TAG INDEX OFFSET).
#[local] Abbreviation access := (Sim.access TAG INDEX OFFSET).
#[local] Abbreviation replay := (Sim.replay TAG INDEX OFFSET).
#[local] Abbreviation simulate := (Sim.simulate TAG INDEX OFFSET).
#[local] Abbreviation address_tag := (Util.address_tag TAG INDEX OFFSET).

Lemma replay_cons (c : Cache) (m : mode) (address : string)
    (rest : list (mode * string)) :
  replay c ((m, address) :: rest) =
  ((replay (access c m address).1 rest).1,
   (access c m address).2 :: (replay (access c m address).1 rest).2).
Proof.
  simpl. destruct (Sim.access _ _ _ c m address) as [c1 o]. simpl.
  by destruct (Sim.replay _ _ _ c1 rest).
Qed.

(** A property of the cache that every access keeps holds at the end of
    every run that starts with it. *)
Lemma replay_preserves (I : Cache → Prop) :
  (∀ c m address, I c → I (access c m address).1) →
  ∀ trace c, I c → I (replay c trace).1.
Proof.
  intros Hstep trace. induction trace as [|[m address] rest IH]; intros c Hc.
  - done.
  - rewrite replay_cons. simpl. apply IH, Hstep, Hc.
Qed.

(** The counters at the end of a run, from the counters at its start and
    the outcomes. *)
Lemma replay_counters (trace : list (mode * string)) (c : Cache) :
  let c' := (replay c trace).1 in
  let os := (replay c trace).2 in
  hits c' = hits c + count_outcome Hit os ∧
  misses c' = misses c + count_outcome MissInstalled os ∧
  reads c' = reads c + count_outcome MissInstalled os ∧
  length os = length trace.
Proof.
  revert c. induction trace as [|[m address] rest IH]; intros c.
  - simpl. repeat split; lia.
  - rewrite replay_cons. cbv zeta. simpl fst. simpl snd.
    pose proof (access_effect TAG INDEX OFFSET c m address)
      as (Hh & Hm & Hr & _).
    pose proof (IH (access c m address).1) as (IHh & IHm & IHr & IHl).
    cbv zeta in *. simpl count_outcome. simpl length.
    rewrite IHh, IHm, IHr, IHl, Hh, Hm, Hr. repeat split; lia.
Qed.

Lemma count_outcome_bounds (o : outcome) (os : list outcome) :
  0 ≤ count_outcome o os ≤ Z.of_nat (length os).
Proof.
  induction os as [|x os IH]; simpl count_outcome; simpl length; [lia|].
  destruct (decide (x = o)); lia.
Qed.

Lemma count_outcome_total (os : list outcome) :
  count_outcome Hit os + count_outcome MissInstalled os
  + count_outcome MissDropped os = Z.of_nat (length os).
Proof.
  induction os as [|x os IH]; simpl count_outcome; simpl length; [lia|].
  destruct x; repeat (destruct (decide _); try done); lia.
Qed.

Lemma createCache_Some (cs bs wp : Z) (c : Cache) :
  createCache cs bs wp = Some c →
  0 < cs ∧ 0 < bs ∧ (wp = 0 ∨ wp = 1) ∧
  c = mkCache 0 0 0 0 cs bs wp (replicate (Z.to_nat (cs ÷ bs)) None).
Proof.
  unfold createCache.
  destruct (cs <=? 0) eqn:Hcs; [done|].
  destruct (bs <=? 0) eqn:Hbs; [done|].
  destruct (wp =? 0) eqn:H0; destruct (wp =? 1) eqn:H1; simpl;
    intros [= <-]; repeat split; lia.
Qed.

Lemma createCache_wf (cs bs wp : Z) (c : Cache) :
  createCache cs bs wp = Some c → wf_cache c.
Proof.
  intros (_ & _ & _ & ->)%createCache_Some.
  unfold wf_cache, lines. simpl. apply length_replicate.
Qed.

Lemma createCache_unique (cs bs wp : Z) (c : Cache) :
  createCache cs bs wp = Some c → unique_tags c.
Proof.
  intros (_ & _ & _ & ->)%createCache_Some i j b1 b2 H1. simpl in H1.
  apply lookup_replicate in H1 as [? _]. done.
Qed.

Lemma simulate_Some (cs bs wp : Z) (trace : list (mode * string))
    (c : Cache) (os : list outcome) :
  simulate cs bs wp trace = Some (c, os) →
  ∃ c0, createCache cs bs wp = Some c0 ∧
        c = (replay c0 trace).1 ∧ os = (replay c0 trace).2.
Proof.
  unfold Sim.simulate. destruct (createCache cs bs wp) as [c0|]; [|done].
  intros [= H]. exists c0. rewrite H. done.
Qed.

(** The memory-write counter never decreases and gains at most one per
    access. *)
Lemma replay_writes_range (trace : list (mode * string)) (c : Cache) :
  writes c ≤ writes (replay c trace).1 ≤ writes c + Z.of_nat (length trace).
Proof.
  revert c. induction trace as [|[m address] rest IH]; intros c.
  - simpl. lia.
  - rewrite replay_cons. simpl fst. simpl length.
    pose proof (access_effect TAG INDEX OFFSET c m address)
      as (_ & _ & _ & Hw & _).
    pose proof (IH (access c m address).1) as IHw.
    cbv zeta in Hw. unfold writes_gain in Hw.
    destruct m; [lia|].
    destruct (access c W address).2; destruct (write_policy c =? 0); lia.
Qed.

(** Under a policy other than write through, no access touches the
    memory-write counter. *)
Lemma replay_writes_back (trace : list (mode * string)) (c : Cache) :
  write_policy c ≠ 0 → writes (replay c trace).1 = writes c.
Proof.
  intros Hwb.
  apply (replay_preserves
    (λ c', write_policy c' = write_policy c ∧ writes c' = writes c));
    [|done].
  intros c' m address [Hp Hw].
  pose proof (access_effect TAG INDEX OFFSET c' m address)
    as (_ & _ & _ & Hw' & _ & _ & Hp' & _).
  cbv zeta in Hw', Hp'. unfold writes_gain in Hw'.
  split; [congruence|].
  destruct (write_policy c' =? 0) eqn:E; [lia|].
  destruct m; [lia|]. destruct (access c' W address).2; lia.
Qed.

(** No counter leaves the range of [int] in a run of less than [2^31]
    accesses. *)
Lemma counters_bounded (cs bs wp : Z) (trace : list (mode * string))
    (c : Cache) (os : list outcome) :
  simulate cs bs wp trace = Some (c, os) →
  0 ≤ hits c ≤ Z.of_nat (length trace) ∧
  0 ≤ misses c ≤ Z.of_nat (length trace) ∧
  0 ≤ reads c ≤ Z.of_nat (length trace) ∧
  0 ≤ writes c ≤ Z.of_nat (length trace).
Proof.
  intros (c0 & Hc0 & -> & _)%simulate_Some.
  apply createCache_Some in Hc0 as (_ & _ & _ & ->).
  set (c0 := mkCache 0 0 0 0 cs bs wp _).
  pose proof (replay_counters trace c0) as (Hh & Hm & Hr & Hl).
  pose proof (replay_writes_range trace c0) as Hw.
  cbv zeta in *. simpl in Hh, Hm, Hr, Hw. rewrite Hh, Hm, Hr, <- Hl.
  pose proof (count_outcome_bounds Hit (replay c0 trace).2).
  pose proof (count_outcome_bounds MissInstalled (replay c0 trace).2).
  rewrite <- Hl in Hw. lia.
Qed.

(** The hit and miss counters add up to the accesses that were not
    dropped. *)
Lemma hits_plus_misses (cs bs wp : Z) (trace : list (mode * string))
    (c : Cache) (os : list outcome) :
  simulate cs bs wp trace = Some (c, os) →
  hits c + misses c =
  Z.of_nat (length trace) - count_outcome MissDropped os.
Proof.
  intros (c0 & Hc0 & -> & ->)%simulate_Some.
  apply createCache_Some in Hc0 as (_ & _ & _ & ->).
  set (c0 := mkCache 0 0 0 0 cs bs wp _).
  pose proof (replay_counters trace c0) as (Hh & Hm & _ & Hl).
  pose proof (count_outcome_total (replay c0 trace).2) as Ht.
  cbv zeta in *. simpl in Hh, Hm. lia.
Qed.

(** ** The claims on every trace *)

(** C2.  On a cache of one line, a read of address 0x00000000 followed by a
    read of address 0xFFFFFFFF, the two addresses having distinct tags,
    ends as [MissInstalled] then [MissDropped]: the second read changes
    nothing in the cache (no block is evicted, none is stored), the one
    slot still holds the block of the first address, and the tag of the
    second address is not resident afterwards. *)
Theorem scenario_C_second_read_dropped (cs bs wp : Z) (c0 : Cache) :
  createCache cs bs wp = Some c0 →
  cs ÷ bs = 1 →
  address_tag "0x00000000" ≠ address_tag "0xFFFFFFFF" →
  let c1 := (readFromCache c0 "0x00000000").1 in
  let r := replay c0 [(R, "0x00000000"); (R, "0xFFFFFFFF")]%string in
  r.2 = [MissInstalled; MissDropped] ∧
  r.1 = c1 ∧
  blocks r.1 = [Some (mkBlock 1 (address_tag "0x00000000") 0)] ∧
  ¬ resident r.1 (address_tag "0xFFFFFFFF").
Proof.
  intros Hc0 Hone Htags.
  apply createCache_Some in Hc0 as (_ & _ & _ & ->).
  rewrite Hone. change (Z.to_nat 1) with 1%nat. simpl replicate.
  assert (String.eqb (address_tag "0x00000000") (address_tag "0xFFFFFFFF")
          = false) as Hneq by (by apply String.eqb_neq).
  cbv zeta. rewrite !replay_cons.
  unfold Sim.access, Sim.readFromCache, lines. simpl.
  rewrite Hone. change (Z.to_nat 1) with 1%nat. simpl.
  rewrite Hone. change (Z.to_nat 1) with 1%nat. simpl.
  rewrite Hneq. simpl.
  repeat split.
  intros (i & b & Hi & _ & Ht). destruct i as [|i]; [|done].
  simpl in Hi. injection Hi as <-. simpl in Ht. congruence.
Qed.

(** C3.  Under write through (policy 0) a write hit adds exactly 1 to the
    memory-write counter and a write miss adds nothing; under write back
    (policy 1) a write hit adds nothing; a read adds nothing under either
    policy. *)
Theorem memoryWrites_by_policy (c : Cache) (address : string) :
  let w := writeToCache c address in
  let r := readFromCache c address in
  (write_policy c = 0 → w.2 = Hit → writes w.1 = writes c + 1) ∧
  (write_policy c = 0 → w.2 ≠ Hit → writes w.1 = writes c) ∧
  (write_policy c = 1 → w.2 = Hit → writes w.1 = writes c) ∧
  writes r.1 = writes c.
Proof.
  pose proof (access_effect TAG INDEX OFFSET c W address)
    as (_ & _ & _ & Hw & _).
  pose proof (access_effect TAG INDEX OFFSET c R address)
    as (_ & _ & _ & Hr & _).
  cbv zeta in *. unfold Sim.access, writes_gain in Hw, Hr.
  repeat split.
  - intros Hp Hhit. rewrite Hw, Hhit, Hp. done.
  - intros Hp Hmiss. rewrite Hw.
    destruct (writeToCache c address).2; [done|lia|lia].
  - intros Hp Hhit. rewrite Hw, Hhit, Hp. simpl. lia.
  - lia.
Qed.

(** C4.  After a run from construction, the memory-read counter is the
    number of accesses that ended as [MissInstalled]; an access, read or
    write, adds 1 to it when it ends as [MissInstalled] and nothing when it
    ends as [Hit] or [MissDropped]. *)
Theorem memoryReads_counts_installed (cs bs wp : Z)
    (trace : list (mode * string)) (c : Cache) (os : list outcome) :
  simulate cs bs wp trace = Some (c, os) →
  reads c = count_outcome MissInstalled os ∧
  length os = length trace ∧
  ∀ (c1 : Cache) (m : mode) (address : string),
    reads (access c1 m address).1 =
    reads c1 + match (access c1 m address).2 with
               | MissInstalled => 1
               | Hit | MissDropped => 0
               end.
Proof.
  intros (c0 & Hc0 & -> & ->)%simulate_Some.
  apply createCache_Some in Hc0 as (_ & _ & _ & ->).
  set (c0 := mkCache 0 0 0 0 cs bs wp _).
  pose proof (replay_counters trace c0) as (_ & _ & Hr & Hl).
  cbv zeta in *. simpl in Hr. repeat split; [lia|done|].
  intros c1 m address.
  pose proof (access_effect TAG INDEX OFFSET c1 m address)
    as (_ & _ & Hr1 & _).
  cbv zeta in Hr1. rewrite Hr1.
  by destruct (access c1 m address).2.
Qed.

(** C7.  From a freshly constructed cache, after every sequence of read and
    write accesses, no two slots hold valid blocks of equal tags. *)
Theorem tags_stay_unique (cs bs wp : Z) (trace : list (mode * string))
    (c : Cache) (os : list outcome) :
  simulate cs bs wp trace = Some (c, os) →
  unique_tags c.
Proof.
  intros (c0 & Hc0 & -> & _)%simulate_Some.
  pose proof (replay_preserves (λ c, wf_cache c ∧ unique_tags c)) as Hinv.
  apply Hinv.
  - intros c m address [Hwf Hu]. split.
    + by apply access_wf.
    + by apply access_unique.
  - split; [by eapply createCache_wf | by eapply createCache_unique].
Qed.

(** C8.  An access that ends as [MissDropped] leaves the cache as it was:
    the four counters and every slot (valid flag, tag, dirty flag) are the
    same before and after. *)
Theorem dropped_access_changes_nothing (c : Cache) (m : mode)
    (address : string) :
  (access c m address).2 = MissDropped →
  (access c m address).1 = c.
Proof.
  destruct m; unfold Sim.access, Sim.readFromCache, Sim.writeToCache;
    cbv zeta;
    destruct (scan (tag_match _) _ _ _) as [i|];
    try destruct (scan is_null _ _ _) as [k|]; simpl; done.
Qed.

(** C9.  At every point of a run, at construction and after each access,
    the memory-read counter equals the miss counter, for every trace and
    both write policies: the state after the first [k] accesses of a trace
    is the final state of the run on [take k trace]. *)
Theorem memoryReads_equals_misses (cs bs wp : Z)
    (trace : list (mode * string)) (k : nat) (c : Cache)
    (os : list outcome) :
  simulate cs bs wp (take k trace) = Some (c, os) →
  reads c = misses c.
Proof.
  intros (c0 & Hc0 & -> & _)%simulate_Some.
  apply createCache_Some in Hc0 as (_ & _ & _ & ->).
  set (c0 := mkCache 0 0 0 0 cs bs wp _).
  pose proof (replay_counters (take k trace) c0) as (_ & Hm & Hr & _).
  cbv zeta in *. simpl in Hm, Hr. lia.
Qed.

(** C10.  Under write back (policy 1) the memory-write counter is 0 at
    construction and after each access of the run, whatever the accesses
    are. *)
Theorem write_back_never_writes_memory (cs bs : Z)
    (trace : list (mode * string)) (k : nat) (c : Cache)
    (os : list outcome) :
  simulate cs bs 1 (take k trace) = Some (c, os) →
  writes c = 0.
Proof.
  intros (c0 & Hc0 & -> & _)%simulate_Some.
  apply createCache_Some in Hc0 as (_ & _ & _ & ->).
  rewrite replay_writes_back; done.
Qed.

End Run.

(** ** Concrete runs

    The runs below take the widths of the example in the comment of
    [formatBinary] in the source: a tag of 18 bits, an index of 12 bits
    and 2 bits of byte select. *)

(** For every positive tag width, the addresses of scenario C have
    distinct tags: their first bits differ. *)
Lemma scenario_C_tags_distinct (TAG INDEX OFFSET : nat) :
  (0 < TAG)%nat →
  address_tag TAG INDEX OFFSET "0x00000000" ≠
  address_tag TAG INDEX OFFSET "0xFFFFFFFF".
Proof.
  intros Hpos. destruct TAG as [|n]; [lia|].
  unfold address_tag, formatBinary.
  change (getBinary (htoi "0x00000000"))
    with "00000000000000000000000000000000"%string.
  change (getBinary (htoi "0xFFFFFFFF"))
    with "11111111111111111111111111111111"%string.
  simpl. discriminate.
Qed.

Lemma scenario_C_witness :
  (replay 18 12 2 (mkCache 0 0 0 0 4 4 0 [None])
     [(R, "0x00000000"); (R, "0xFFFFFFFF")]%string).2
  = [MissInstalled; MissDropped]
  ∧ ¬ resident
        (replay 18 12 2 (mkCache 0 0 0 0 4 4 0 [None])
           [(R, "0x00000000"); (R, "0xFFFFFFFF")]%string).1
        (address_tag 18 12 2 "0xFFFFFFFF").
Proof.
  pose proof (scenario_C_second_read_dropped 18 12 2 4 4 0
                (mkCache 0 0 0 0 4 4 0 [None]) eq_refl eq_refl
                (scenario_C_tags_distinct 18 12 2 ltac:(lia)))
    as (Hos & _ & _ & Hres).
  split; [exact Hos | exact Hres].
Defined.

(** C1.  The run of scenario C on a cache of one line processes two
    accesses and counts one: the dropped miss adds nothing to [misses]
    (nor to [hits]), so [hits + misses] is 1 and not 2. *)
Theorem dropped_miss_is_not_counted :
  ∃ c : Cache,
    simulate 18 12 2 4 4 0 [(R, "0x00000000"); (R, "0xFFFFFFFF")]%string
    = Some (c, [MissInstalled; MissDropped])
    ∧ hits c = 0 ∧ misses c = 1 ∧ hits c + misses c ≠ 2.
Proof.
  eexists. split; [vm_compute; reflexivity|]. simpl. repeat split. lia.
Qed.

(** C5, as the specification states it, fails for a cache of 3 bytes with
    blocks of 2 bytes: 2 does not divide 3, yet the construction
    succeeds. *)
Lemma createCache_accepts_indivisible :
  ¬ (createCache 3 2 0 = None ↔
     ¬ (0 < 3 ∧ 0 < 2 ∧ (2 | 3) ∧ (0 = 0 ∨ 0 = 1))).
Proof.
  intros [_ Hfail].
  assert (createCache 3 2 0 = None) as Hnone; [|done].
  apply Hfail. intros (_ & _ & [q Hq] & _). lia.
Qed.

(** C5, amended.  The construction fails (the result is NULL, no cache is
    returned) if and only if the cache size is not positive, or the block
    size is not positive, or the write policy is neither 0 nor 1; when it
    succeeds, the cache has [cache_size / block_size] slots (the quotient
    rounded down), all empty, and zeroed counters.  Whether the block size
    divides the cache size plays no part. *)
Theorem createCache_fails_iff (cs bs wp : Z) :
  (createCache cs bs wp = None ↔ ¬ (0 < cs ∧ 0 < bs ∧ (wp = 0 ∨ wp = 1)))
  ∧ (0 < cs ∧ 0 < bs ∧ (wp = 0 ∨ wp = 1) ↔
     createCache cs bs wp =
     Some (mkCache 0 0 0 0 cs bs wp (replicate (Z.to_nat (cs / bs)) None))).
Proof.
  unfold createCache.
  destruct (Z.leb_spec cs 0) as [Hcs|Hcs]; simpl.
  { split; split; try done; [lia|]. intros (? & _). lia. }
  destruct (Z.leb_spec bs 0) as [Hbs|Hbs]; simpl.
  { split; split; try done; [lia|]. intros (_ & ? & _). lia. }
  rewrite Z.quot_div_nonneg by lia.
  destruct (Z.eqb_spec wp 0) as [H0|H0];
    destruct (Z.eqb_spec wp 1) as [H1|H1]; simpl;
    (split; split; try done; try (intros Hn; exfalso; apply Hn); lia).
Qed.

(** C6.  On the address "0x1g" the source returns 16: the character g,
    which it does not recognize, still shifts the result by one hex digit.
    Deleting the g gives "0x1", of value 1. *)
Theorem htoi_shifts_on_unrecognized :
  htoi "0x1g" = 16 ∧ spec_htoi "0x1g" = 1 ∧ htoi "0x1" = 1.
Proof. repeat split. Qed.

(** ** The scenarios of the specification and the sample trace *)

Example scenario_A :
  simulate 18 12 2 4 4 0 [(R, "0x00000000"); (R, "0x00000000")]%string =
  Some (mkCache 1 1 1 0 4 4 0 [Some (mkBlock 1 "000000000000000000" 0)],
        [MissInstalled; Hit]).
Proof. vm_compute. reflexivity. Qed.

Example scenario_B :
  simulate 18 12 2 4 4 0 [(R, "0x00000000"); (R, "0x00000004")]%string =
  Some (mkCache 1 1 1 0 4 4 0 [Some (mkBlock 1 "000000000000000000" 0)],
        [MissInstalled; Hit]).
Proof. vm_compute. reflexivity. Qed.

Example scenario_D :
  simulate 18 12 2 8 4 0 [(W, "0x1"); (W, "0x1")]%string =
  Some (mkCache 1 1 1 1 8 4 0
          [Some (mkBlock 1 "000000000000000000" 1); None],
        [MissInstalled; Hit]).
Proof. vm_compute. reflexivity. Qed.

(** A cache smaller than a block has no line: every access is dropped. *)
Example no_line_cache :
  simulate 18 12 2 1 2 0 [(R, "0x00000000"); (W, "0x00000000")]%string =
  Some (mkCache 0 0 0 0 1 2 0 [], [MissDropped; MissDropped]).
Proof. vm_compute. reflexivity. Qed.

(** The source returns 0 exactly when the access is dropped. *)
Lemma return_value_0 (o : outcome) : return_value o = 0 ↔ o = MissDropped.
Proof. destruct o; simpl; split; (done || lia). Qed.

Example sample_run_write_through :
  simulate 18 12 2 8 4 0 sample_trace =
  Some (mkCache 1 2 2 1 8 4 0
          [Some (mkBlock 1 "000000000000000000" 1);
           Some (mkBlock 1 "000110100010101100" 0)],
        [MissInstalled; Hit; MissInstalled; MissDropped; MissDropped]).
Proof. vm_compute. reflexivity. Qed.

Lemma memoryWrites_by_policy_witness :
  writes (writeToCache 18 12 2 (full_cache 0) "0x00000003").1 = 1
  ∧ writes (writeToCache 18 12 2 (full_cache 0) "0xFFFFFFFF").1 = 0
  ∧ writes (writeToCache 18 12 2 (full_cache 1) "0x00000003").1 = 0
  ∧ writes (readFromCache 18 12 2 (full_cache 0) "0x00000003").1 = 0.
Proof.
  pose proof (memoryWrites_by_policy 18 12 2 (full_cache 0) "0x00000003")
    as (Hhit & _ & _ & Hread).
  pose proof (memoryWrites_by_policy 18 12 2 (full_cache 0) "0xFFFFFFFF")
    as (_ & Hmiss & _ & _).
  pose proof (memoryWrites_by_policy 18 12 2 (full_cache 1) "0x00000003")
    as (_ & _ & Hback & _).
  split; [|split; [|split]].
  - exact (Hhit eq_refl eq_refl).
  - apply Hmiss; [reflexivity | vm_compute; discriminate].
  - exact (Hback eq_refl eq_refl).
  - exact Hread.
Defined.

Lemma memoryReads_counts_installed_witness :
  ∃ (c : Cache) (os : list outcome),
    simulate 18 12 2 8 4 0 sample_trace = Some (c, os)
    ∧ reads c = count_outcome MissInstalled os.
Proof.
  eexists _, _. split.
  - vm_compute. reflexivity.
  - refine (proj1 (memoryReads_counts_installed 18 12 2 8 4 0
                     sample_trace _ _ _)).
    vm_compute. reflexivity.
Defined.

Lemma tags_stay_unique_witness :
  ∃ (c : Cache) (os : list outcome),
    simulate 18 12 2 8 4 0 sample_trace = Some (c, os) ∧ unique_tags c.
Proof.
  eexists _, _. split.
  - vm_compute. reflexivity.
  - refine (tags_stay_unique 18 12 2 8 4 0 sample_trace _ _ _).
    vm_compute. reflexivity.
Defined.

Lemma dropped_access_changes_nothing_witness :
  (access 18 12 2 (full_cache 0) W "0xFFFFFFFF").2 = MissDropped
  ∧ (access 18 12 2 (full_cache 0) W "0xFFFFFFFF").1 = full_cache 0.
Proof.
  split; [reflexivity|].
  apply (dropped_access_changes_nothing 18 12 2 (full_cache 0) W
           "0xFFFFFFFF").
  reflexivity.
Defined.

Lemma memoryReads_equals_misses_witness :
  ∃ (c : Cache) (os : list outcome),
    simulate 18 12 2 8 4 0 (take 3 sample_trace) = Some (c, os)
    ∧ reads c = misses c.
Proof.
  eexists _, _. split.
  - vm_compute. reflexivity.
  - refine (memoryReads_equals_misses 18 12 2 8 4 0 sample_trace 3 _ _ _).
    vm_compute. reflexivity.
Defined.

Lemma write_back_never_writes_memory_witness :
  ∃ (c : Cache) (os : list outcome),
    simulate 18 12 2 8 4 1 (take 5 sample_trace) = Some (c, os)
    ∧ writes c = 0.
Proof.
  eexists _, _. split.
  - vm_compute. reflexivity.
  - refine (write_back_never_writes_memory 18 12 2 8 4 sample_trace 5
              _ _ _).
    vm_compute. reflexivity.
Defined.

(** * Further properties of the source *)

Import Decode.

(** ** [htoi] *)

Lemma htoi_step_range (result : Z) (c : ascii) :
  0 ≤ htoi_step result c < 2 ^ 32.
Proof.
  unfold htoi_step, u32.
  repeat match goal with
         | |- context [if ?b then _ else _] => destruct b
         end; apply Z.mod_pos_bound; lia.
Qed.

Lemma htoi_loop_range (str : string) (result : Z) :
  0 ≤ result < 2 ^ 32 → 0 ≤ htoi_loop result str < 2 ^ 32.
Proof.
  revert result. induction str as [|c rest IH]; intros result Hr; simpl;
    [done|].
  destruct (char_code c =? 0); [done|]. apply IH, htoi_step_range.
Qed.

(** Stepping over a leading "0x" changes nothing: from a result of 0 the
    loop itself passes over the two characters. *)
Lemma htoi_is_loop (str : string) : htoi str = htoi_loop 0 str.
Proof.
  destruct str as [|c [|d rest]].
  - reflexivity.
  - destruct c as [[] [] [] [] [] [] [] []]; reflexivity.
  - destruct c as [[] [] [] [] [] [] [] []]; try reflexivity.
    destruct d as [[] [] [] [] [] [] [] []]; reflexivity.
Qed.

Lemma htoi_in_u32 (str : string) : 0 ≤ htoi str < 2 ^ 32.
Proof. rewrite htoi_is_loop. apply htoi_loop_range. lia. Qed.


(** The step of the loop in one formula: an unrecognized character counts
    as the digit 0. *)
Lemma htoi_step_fill (result : Z) (c : ascii) :
  htoi_step result c =
  u32 (result * 16 + digit_value (if recognized c then c else "0"%char)).
Proof.
  destruct (recognized c) eqn:Hc.
  - by apply htoi_step_recognized.
  - rewrite htoi_step_unrecognized by done.
    change (digit_value "0") with 0. by rewrite Z.add_0_r.
Qed.

Lemma htoi_loop_zero_fill (str : string) (result : Z) :
  nul_free str = true →
  htoi_loop result str = hex_value result (zero_fill str).
Proof.
  revert result. induction str as [|c rest IH]; intros result; simpl;
    [done|].
  intros [Hc Hrest]%andb_true_iff. apply negb_true_iff in Hc.
  rewrite Hc, htoi_step_fill. by apply IH.
Qed.

(** X2.  On a string without NUL, [htoi] gives the value, modulo [2^32],
    of the string in which the digit 0 stands for every character that is
    not a hexadecimal digit, the x of a leading "0x" included. *)
Theorem htoi_zero_fill (str : string) :
  nul_free str = true →
  htoi str = hex_value 0 (zero_fill str).
Proof. intros H. rewrite htoi_is_loop. by apply htoi_loop_zero_fill. Qed.

Lemma htoi_step_ignorable (c : ascii) :
  ignorable c = true → (char_code c =? 0) = false ∧ htoi_step 0 c = 0.
Proof.
  unfold ignorable. intros [Hnul Hc]%andb_true_iff.
  apply negb_true_iff in Hnul. split; [done|].
  rewrite htoi_step_fill.
  destruct (recognized c) eqn:Hrec; simpl in Hc; [|reflexivity].
  apply Z.eqb_eq in Hc. unfold digit_value. rewrite Hc. reflexivity.
Qed.

Lemma htoi_loop_app (p str : string) (result : Z) :
  nul_free p = true →
  htoi_loop result (p +:+ str) = htoi_loop (htoi_loop result p) str.
Proof.
  revert result. induction p as [|c p IH]; intros result; simpl; [done|].
  intros [Hc Hp]%andb_true_iff. apply negb_true_iff in Hc.
  rewrite Hc. by apply IH.
Qed.

Lemma htoi_skips_ignorable (p str : string) :
  all_ignorable p = true →
  htoi (p +:+ str) = htoi str.
Proof.
  rewrite !htoi_is_loop. induction p as [|c p IH]; simpl; [done|].
  intros [Hc Hp]%andb_true_iff.
  apply htoi_step_ignorable in Hc as [-> ->]. by apply IH.
Qed.

(** X3.  Characters that [htoi] does not recognize and digits 0 at the
    head of the string do not change the result: spaces, a "0x" and
    leading zeros before the first digit are all one to it. *)
Theorem htoi_leading_ignorable (p str : string) :
  all_ignorable p = true →
  htoi (p +:+ str) = htoi str.
Proof. apply htoi_skips_ignorable. Qed.

Lemma htoi_leading_ignorable_witness :
  htoi (" 0x000" +:+ "9cb3d40") = htoi "9cb3d40".
Proof. apply htoi_leading_ignorable. reflexivity. Defined.

Lemma mod_mul_add (M a b c : Z) :
  (a `mod` M * b + c) `mod` M = (a * b + c) `mod` M.
Proof.
  rewrite <- (Zplus_mod_idemp_l (a `mod` M * b)), Zmult_mod_idemp_l.
  by rewrite Zplus_mod_idemp_l.
Qed.

(** The loop is linear in the result it starts from: a start of
    [result] adds [result * 16 ^ length] to what a start of 0 gives. *)
Lemma htoi_loop_linear (str : string) (result : Z) :
  nul_free str = true →
  0 ≤ result < 2 ^ 32 →
  htoi_loop result str =
  u32 (result * 16 ^ Z.of_nat (String.length str) + htoi_loop 0 str).
Proof.
  revert result. induction str as [|c rest IH]; intros result Hnul Hr.
  - simpl. unfold u32. rewrite Z.mul_1_r, Z.add_0_r, Z.mod_small; lia.
  - simpl in Hnul. apply andb_true_iff in Hnul as [Hc Hrest].
    apply negb_true_iff in Hc.
    cbn [htoi_loop String.length]. rewrite Hc.
    rewrite (IH (htoi_step result c)), (IH (htoi_step 0 c))
      by (done || apply htoi_step_range).
    rewrite !htoi_step_fill.
    set (d := digit_value _). set (n := Z.of_nat (String.length rest)).
    set (L := htoi_loop 0 rest).
    replace (Z.of_nat (S (String.length rest))) with (n + 1) by lia.
    rewrite Z.pow_add_r by lia. unfold u32. simpl (0 * 16).
    rewrite Zplus_mod_idemp_r, mod_mul_add.
    rewrite <- (Zplus_mod_idemp_r (_ `mod` _ * _ + L)), mod_mul_add.
    rewrite Zplus_mod_idemp_r. f_equal. lia.
Qed.

(** X4.  Only the last eight characters count: when the string has eight
    characters or more after a prefix, the 32-bit result has lost all that
    the prefix contributed. *)
Theorem htoi_keeps_last_eight (p str : string) :
  nul_free p = true → nul_free str = true →
  (8 ≤ String.length str)%nat →
  htoi (p +:+ str) = htoi str.
Proof.
  intros Hp Hstr Hlen. rewrite !htoi_is_loop, htoi_loop_app by done.
  rewrite htoi_loop_linear by (done || apply htoi_loop_range; lia).
  pose proof (htoi_loop_range str 0 ltac:(lia)) as Hrange.
  set (q := htoi_loop 0 p).
  replace (Z.of_nat (String.length str))
    with (8 + (Z.of_nat (String.length str) - 8)) by lia.
  rewrite Z.pow_add_r by lia. change (16 ^ 8) with (2 ^ 32).
  unfold u32.
  replace (q * (2 ^ 32 * 16 ^ (Z.of_nat (String.length str) - 8)))
    with (q * 16 ^ (Z.of_nat (String.length str) - 8) * 2 ^ 32) by lia.
  rewrite Z.add_comm, Z_mod_plus_full. apply Z.mod_small. lia.
Qed.

Lemma htoi_keeps_last_eight_witness :
  htoi ("0x12345" +:+ "1A2B3C4D") = htoi "1A2B3C4D".
Proof. apply htoi_keeps_last_eight; [reflexivity | reflexivity | simpl; lia]. Defined.

(** ** Strings *)

Lemma substring_nil (a len : nat) : substring a len "" = ""%string.
Proof. by destruct a, len. Qed.

Lemma substring_0_length (str : string) :
  substring 0 (String.length str) str = str.
Proof. induction str as [|c rest IH]; simpl; [done|]. by rewrite IH. Qed.

Lemma substring_add (str : string) (a l1 l2 : nat) :
  substring a (l1 + l2) str =
  (substring a l1 str +:+ substring (a + l1) l2 str)%string.
Proof.
  revert a l1. induction str as [|c rest IH]; intros a l1.
  - by rewrite !substring_nil.
  - destruct a as [|a]; simpl.
    + destruct l1 as [|l1]; simpl.
      * by destruct l2.
      * by rewrite (IH 0%nat l1).
    + apply IH.
Qed.

Lemma substring_app_l (s1 s2 : string) :
  substring 0 (String.length s1) (s1 +:+ s2) = s1.
Proof.
  induction s1 as [|c s1 IH]; simpl; [by destruct s2|]. by rewrite IH.
Qed.

Lemma substring_app_skip (s1 s2 : string) (a len : nat) :
  substring (String.length s1 + a) len (s1 +:+ s2) = substring a len s2.
Proof. induction s1 as [|c s1 IH]; simpl; done. Qed.

Lemma length_substring (str : string) (a len : nat) :
  (a + len ≤ String.length str)%nat →
  String.length (substring a len str) = len.
Proof.
  revert a len. induction str as [|c rest IH]; intros a len; simpl.
  - intros H. assert (a = 0 ∧ len = 0)%nat as [-> ->] by lia. done.
  - intros H. destruct a as [|a].
    + destruct len as [|len]; simpl; [done|]. rewrite IH; [done|lia].
    + apply IH. lia.
Qed.

Lemma until_nul_free (str : string) :
  nul_free str = true → until_nul str = str.
Proof.
  induction str as [|c rest IH]; simpl; [done|].
  intros [Hc Hrest]%andb_true_iff. apply negb_true_iff in Hc.
  rewrite Hc, IH; done.
Qed.

Lemma binary_nul_free (str : string) :
  binary str = true → nul_free str = true.
Proof.
  induction str as [|c rest IH]; simpl; [done|].
  intros [Hc Hrest]%andb_true_iff. rewrite IH by done.
  destruct (char_code c =? 0) eqn:E; [|done].
  apply Z.eqb_eq in E. rewrite E in Hc. done.
Qed.

(** ** [getBinary] and [btoi] *)

Lemma bit_char_testbit (num i : Z) :
  0 ≤ i →
  bit_char num i = if Z.testbit num i then "1"%char else "0"%char.
Proof.
  intros Hi. unfold bit_char. rewrite Z.shiftl_1_l.
  destruct (Z.testbit num i) eqn:Hbit.
  - replace (num =? Z.lor (2 ^ i) num) with true; [done|].
    symmetry. apply Z.eqb_eq. apply Z.bits_inj'. intros k Hk.
    rewrite Z.lor_spec, Z.pow2_bits_eqb by done.
    destruct (Z.eqb_spec i k) as [->|]; [by rewrite Hbit|done].
  - replace (num =? Z.lor (2 ^ i) num) with false; [done|].
    symmetry. apply Z.eqb_neq. intros Heq.
    apply (f_equal (λ z, Z.testbit z i)) in Heq.
    rewrite Z.lor_spec, Z.pow2_bits_eqb, Z.eqb_refl in Heq by done.
    simpl in Heq. congruence.
Qed.

Lemma length_bits_below (num : Z) (k : nat) :
  String.length (bits_below num k) = k.
Proof. induction k as [|k IH]; simpl; [done|]. by rewrite IH. Qed.

Lemma binary_bits_below (num : Z) (k : nat) :
  binary (bits_below num k) = true.
Proof.
  induction k as [|k IH]; simpl; [done|]. rewrite IH.
  unfold bit_char. by destruct (num =? _).
Qed.

Lemma doublings_pow (n : nat) : doublings n = 2 ^ Z.of_nat n.
Proof.
  induction n as [|n IH]; [done|].
  cbn [doublings]. rewrite IH, Nat2Z.inj_succ, Z.pow_succ_r; lia.
Qed.

(** The low bits of a number, one bit at a time. *)
Lemma mod_pow2_succ (m : Z) (k : nat) :
  m `mod` 2 ^ Z.of_nat (S k) =
  Z.b2z (Z.testbit m (Z.of_nat k)) * 2 ^ Z.of_nat k + m `mod` 2 ^ Z.of_nat k.
Proof.
  rewrite Nat2Z.inj_succ, Z.pow_succ_r by lia.
  rewrite (Z.mul_comm 2), Z.rem_mul_r by lia.
  rewrite Z.testbit_spec' by lia. lia.
Qed.

Lemma btoi_loop_bits_below (m : Z) (k : nat) (sum : Z) :
  btoi_loop sum (bits_below m k) = sum + m `mod` 2 ^ Z.of_nat k.
Proof.
  revert sum. induction k as [|k IH]; intros sum.
  - simpl. rewrite Z.mod_1_r. lia.
  - cbn [bits_below btoi_loop]. rewrite bit_char_testbit by lia.
    rewrite length_bits_below, doublings_pow, mod_pow2_succ.
    destruct (Z.testbit m (Z.of_nat k)); simpl Z.b2z;
      [change (char_code "1" - 48) with 1 | change (char_code "0" - 48) with 0];
      simpl; rewrite IH; lia.
Qed.

(** The characters [a .. a+len) of the bit string are the low [len] bits
    of the number shifted right. *)
Lemma substring_bits_below (m : Z) (k a len : nat) :
  (a + len ≤ k)%nat →
  substring a len (bits_below m k) =
  bits_below (Z.shiftr m (Z.of_nat (k - a - len))) len.
Proof.
  revert a len. induction k as [|k IH]; intros a len Hle.
  - assert (a = 0 ∧ len = 0)%nat as [-> ->] by lia. done.
  - destruct a as [|a].
    + destruct len as [|len]; [done|].
      cbn [bits_below substring]. rewrite (IH 0%nat len) by lia.
      rewrite !bit_char_testbit by lia.
      replace (S k - 0 - S len)%nat with (k - 0 - len)%nat by lia.
      rewrite Z.shiftr_spec by lia.
      replace (Z.of_nat len + Z.of_nat (k - 0 - len)) with (Z.of_nat k)
        by lia.
      done.
    + cbn [bits_below substring]. rewrite IH by lia.
      by replace (S k - S a - len)%nat with (k - a - len)%nat by lia.
Qed.

Lemma btoi_loop_not_binary (bin : string) (sum : Z) :
  binary bin = false → btoi_loop sum bin = 0.
Proof.
  revert sum. induction bin as [|c rest IH]; intros sum; simpl; [done|].
  intros Hbin.
  destruct (Z.gtb_spec (char_code c - 48) 1); [done|].
  destruct (Z.ltb_spec (char_code c - 48) 0); [done|]. simpl.
  apply IH.
  destruct (Z.eqb_spec (char_code c) 48), (Z.eqb_spec (char_code c) 49);
    simpl in Hbin; (done || lia).
Qed.

(** X5.  [btoi] returns 0 on every string that holds a character other
    than '0' and '1', wherever the character stands and whatever bits
    stand before it. *)
Theorem btoi_error_is_zero (bin : string) :
  binary (until_nul bin) = false → btoi bin = 0.
Proof. intros H. by apply btoi_loop_not_binary. Qed.

Lemma btoi_error_is_zero_witness : btoi "1112" = 0.
Proof. apply btoi_error_is_zero. reflexivity. Defined.

Lemma btoi_substring_getBinary (num : Z) (a len : nat) :
  (a + len ≤ 32)%nat → (len ≤ 31)%nat →
  btoi (substring a len (getBinary num)) =
  (num / 2 ^ Z.of_nat (32 - a - len)) `mod` 2 ^ Z.of_nat len.
Proof.
  intros Hle _. unfold getBinary, btoi.
  rewrite substring_bits_below by done.
  rewrite until_nul_free by apply binary_nul_free, binary_bits_below.
  rewrite btoi_loop_bits_below, Z.shiftr_div_pow2 by lia. lia.
Qed.

(** X6.  [btoi] reads back what [getBinary] wrote: the characters
    [a .. a+len) of the binary string of [num] are, as an integer, the
    [len] bits of [num] above its [32 - a - len] lowest ones.  (Fields of
    at most 31 bits: the [int] of [btoi] holds them.) *)
Theorem btoi_getBinary_field (num : Z) (a len : nat) :
  (a + len ≤ 32)%nat → (len ≤ 31)%nat →
  btoi (substring a len (getBinary num)) =
  (num / 2 ^ Z.of_nat (32 - a - len)) `mod` 2 ^ Z.of_nat len.
Proof. apply btoi_substring_getBinary. Qed.

Lemma btoi_getBinary_field_witness :
  btoi (substring 18 12 (getBinary 2338684)) =
  (2338684 / 2 ^ Z.of_nat (32 - 18 - 12)) `mod` 2 ^ Z.of_nat 12.
Proof. apply btoi_getBinary_field; lia. Defined.

(** ** [formatBinary], the tag and [parseMemoryAddress] *)

Section Fields.

Variables TAG INDEX OFFSET : nat.

#[local] Abbreviation formatBinary := (Util.formatBinary TAG INDEX OFFSET).
#[local] Abbreviation address_tag := (Util.address_tag TAG INDEX OFFSET).
#[local] Abbreviation parseMemoryAddress :=
  (Decode.parseMemoryAddress TAG INDEX OFFSET).
#[local] Abbreviation access := (Sim.access TAG INDEX OFFSET).

(** The three fields that [parseMemoryAddress] cuts out of the formatted
    string are the three fields that [formatBinary] took from the binary
    string: the spaces between them are stepped over. *)
Lemma parse_fields (address : string) :
  (TAG + INDEX + OFFSET ≤ 32)%nat →
  let bstring := getBinary (htoi address) in
  let f := parseMemoryAddress address in
  tag_bits f = substring 0 TAG bstring ∧
  index_bits f = substring TAG INDEX bstring ∧
  offset_bits f = substring (TAG + INDEX) OFFSET bstring.
Proof.
  intros Hsum bstring f. unfold f, Decode.parseMemoryAddress.
  fold bstring. cbv zeta. unfold Util.formatBinary. cbn [tag_bits index_bits offset_bits].
  assert (String.length bstring = 32%nat) as Hlen
    by apply length_bits_below.
  set (F1 := substring 0 TAG bstring).
  set (F2 := substring TAG INDEX bstring).
  set (F3 := substring (TAG + INDEX) OFFSET bstring).
  assert (String.length F1 = TAG) as H1
    by (apply length_substring; lia).
  assert (String.length F2 = INDEX) as H2
    by (apply length_substring; lia).
  assert (String.length F3 = OFFSET) as H3
    by (apply length_substring; lia).
  split; [|split].
  - rewrite <- H1 at 1. apply substring_app_l.
  - replace (TAG + 1)%nat with (String.length F1 + 1)%nat by lia.
    rewrite substring_app_skip.
    change (substring 1 INDEX (" " +:+ F2 +:+ " " +:+ F3))
      with (substring 0 INDEX (F2 +:+ " " +:+ F3)).
    rewrite <- H2 at 1. apply substring_app_l.
  - replace (INDEX + TAG + 2)%nat
      with (String.length F1 + S (String.length F2 + 1))%nat by lia.
    rewrite substring_app_skip.
    change (substring (S (String.length F2 + 1)) OFFSET
              (" " +:+ F2 +:+ " " +:+ F3))
      with (substring (String.length F2 + 1) OFFSET (F2 +:+ " " +:+ F3)).
    rewrite substring_app_skip.
    change (substring 1 OFFSET (" " +:+ F3)) with (substring 0 OFFSET F3).
    rewrite <- H3 at 1. apply substring_0_length.
Qed.

(** X7.  For widths that add up to 32, the three fields that
    [parseMemoryAddress] prints have [TAG], [INDEX] and [OFFSET]
    characters and, put end to end, are the 32 characters that [getBinary]
    makes of the address. *)
Theorem parseMemoryAddress_fields (address : string) :
  (TAG + INDEX + OFFSET = 32)%nat →
  let f := parseMemoryAddress address in
  (tag_bits f +:+ index_bits f +:+ offset_bits f)%string
  = getBinary (htoi address)
  ∧ String.length (tag_bits f) = TAG
  ∧ String.length (index_bits f) = INDEX
  ∧ String.length (offset_bits f) = OFFSET.
Proof.
  intros Hsum f. subst f.
  destruct (parse_fields address ltac:(lia)) as (-> & -> & ->).
  assert (String.length (getBinary (htoi address)) = 32%nat) as Hlen
    by apply length_bits_below.
  split; [|by rewrite !length_substring by lia].
  rewrite <- substring_add.
  rewrite <- (substring_add _ 0 TAG (INDEX + OFFSET)).
  replace (TAG + (INDEX + OFFSET))%nat
    with (String.length (getBinary (htoi address))) by lia.
  apply substring_0_length.
Qed.

(** X8.  For widths that add up to 32, none of them 32, the three integers
    that [parseMemoryAddress] prints decompose the address: the tag value
    times [2^(INDEX+OFFSET)], plus the index value times [2^OFFSET], plus
    the offset value, is the value of the address, and each value is
    within the width of its field. *)
Theorem parseMemoryAddress_values (address : string) :
  (TAG + INDEX + OFFSET = 32)%nat →
  (TAG ≤ 31)%nat → (INDEX ≤ 31)%nat → (OFFSET ≤ 31)%nat →
  let f := parseMemoryAddress address in
  htoi address =
    tag_value f * 2 ^ Z.of_nat (INDEX + OFFSET)
    + index_value f * 2 ^ Z.of_nat OFFSET + offset_value f
  ∧ 0 ≤ tag_value f < 2 ^ Z.of_nat TAG
  ∧ 0 ≤ index_value f < 2 ^ Z.of_nat INDEX
  ∧ 0 ≤ offset_value f < 2 ^ Z.of_nat OFFSET.
Proof.
  intros Hsum Ht Hi Ho f.
  destruct (parse_fields address ltac:(lia)) as (Htag & Hidx & Hoff).
  fold f in Htag, Hidx, Hoff.
  assert (tag_value f = btoi (tag_bits f)) as -> by done.
  assert (index_value f = btoi (index_bits f)) as -> by done.
  assert (offset_value f = btoi (offset_bits f)) as -> by done.
  rewrite Htag, Hidx, Hoff, !btoi_substring_getBinary by lia.
  pose proof (htoi_in_u32 address) as Hn. set (n := htoi address) in *.
  replace (32 - 0 - TAG)%nat with (INDEX + OFFSET)%nat by lia.
  replace (32 - TAG - INDEX)%nat with OFFSET by lia.
  replace (32 - (TAG + INDEX) - OFFSET)%nat with 0%nat by lia.
  rewrite Nat2Z.inj_add, Z.pow_add_r by lia.
  change (2 ^ Z.of_nat 0) with 1. rewrite Z.div_1_r.
  set (I := 2 ^ Z.of_nat INDEX). set (O := 2 ^ Z.of_nat OFFSET).
  set (T := 2 ^ Z.of_nat TAG).
  assert (0 < I) by (apply Z.pow_pos_nonneg; lia).
  assert (0 < O) by (apply Z.pow_pos_nonneg; lia).
  assert (0 < T) by (apply Z.pow_pos_nonneg; lia).
  assert (T * (I * O) = 2 ^ 32) as Hprod.
  { unfold T, I, O. rewrite <- !Z.pow_add_r by lia. f_equal. lia. }
  assert (0 ≤ n / (I * O) < T) as Htagrange.
  { split; [apply Z.div_pos; nia|].
    apply Z.div_lt_upper_bound; [nia|]. nia. }
  rewrite (Z.mod_small (n / (I * O)) T) by done.
  pose proof (Z.mod_pos_bound (n / O) I ltac:(lia)).
  pose proof (Z.mod_pos_bound n O ltac:(lia)).
  split; [|done].
  rewrite (Z.mul_comm I O), <- Z.div_div by lia.
  pose proof (Z.div_mod n O ltac:(lia)).
  pose proof (Z.div_mod (n / O) I ltac:(lia)). nia.
Qed.

Lemma address_tag_bits (address : string) :
  (TAG ≤ 32)%nat →
  address_tag address =
  bits_below (Z.shiftr (htoi address) (Z.of_nat (32 - TAG))) TAG.
Proof.
  intros Ht. unfold Util.address_tag, Util.formatBinary. cbv zeta.
  set (bstring := getBinary (htoi address)).
  assert (String.length bstring = 32%nat) as Hlen
    by apply length_bits_below.
  assert (String.length (substring 0 TAG bstring) = TAG) as H1
    by (apply length_substring; lia).
  rewrite <- H1 at 1. rewrite substring_app_l.
  unfold bstring, getBinary. rewrite substring_bits_below by lia.
  by replace (32 - 0 - TAG)%nat with (32 - TAG)%nat by lia.
Qed.

Lemma address_tag_same_iff (a b : string) :
  (TAG ≤ 32)%nat →
  (address_tag a = address_tag b ↔
   htoi a / 2 ^ Z.of_nat (32 - TAG) = htoi b / 2 ^ Z.of_nat (32 - TAG))
  ∧ String.length (address_tag a) = TAG.
Proof.
  intros Ht. rewrite !address_tag_bits by done.
  split; [|apply length_bits_below].
  rewrite !Z.shiftr_div_pow2 by lia.
  split; [|by intros ->].
  intros Heq. apply (f_equal (btoi_loop 0)) in Heq.
  rewrite !btoi_loop_bits_below in Heq.
  assert (∀ s, 0 ≤ htoi s / 2 ^ Z.of_nat (32 - TAG) < 2 ^ Z.of_nat TAG)
    as Hrange.
  { intros s. pose proof (htoi_in_u32 s) as Hn.
    assert (2 ^ Z.of_nat (32 - TAG) * 2 ^ Z.of_nat TAG = 2 ^ 32) as Hprod.
    { rewrite <- Z.pow_add_r by lia. f_equal. lia. }
    assert (0 < 2 ^ Z.of_nat (32 - TAG)) by (apply Z.pow_pos_nonneg; lia).
    split; [apply Z.div_pos; lia|].
    apply Z.div_lt_upper_bound; lia. }
  rewrite !Z.mod_small in Heq by apply Hrange. lia.
Qed.

(** X9.  For a tag of at most 32 bits, two addresses have the same tag
    string exactly when their values agree above the [32 - TAG] low bits;
    the tag string has [TAG] characters. *)
Theorem address_tag_eq_iff (a b : string) :
  (TAG ≤ 32)%nat →
  (address_tag a = address_tag b ↔
   htoi a / 2 ^ Z.of_nat (32 - TAG) = htoi b / 2 ^ Z.of_nat (32 - TAG))
  ∧ String.length (address_tag a) = TAG.
Proof. apply address_tag_same_iff. Qed.

(** X10.  The bits of an address below its tag play no part in the
    simulation: two addresses that agree above the [32 - TAG] low bits
    give the same outcome and the same cache, in either mode. *)
Theorem access_ignores_low_bits (c : Cache) (m : mode) (a b : string) :
  (TAG ≤ 32)%nat →
  htoi a / 2 ^ Z.of_nat (32 - TAG) = htoi b / 2 ^ Z.of_nat (32 - TAG) →
  access c m a = access c m b.
Proof.
  intros Ht Hab.
  assert (address_tag a = address_tag b) as Htag
    by (by apply address_tag_same_iff).
  destruct m; unfold Sim.access, Sim.readFromCache, Sim.writeToCache;
    cbv zeta; by rewrite Htag.
Qed.

End Fields.

Lemma parseMemoryAddress_fields_witness :
  let f := parseMemoryAddress 18 12 2 "0x0023AF7C" in
  (tag_bits f +:+ index_bits f +:+ offset_bits f)%string
  = getBinary (htoi "0x0023AF7C")
  ∧ String.length (tag_bits f) = 18%nat
  ∧ String.length (index_bits f) = 12%nat
  ∧ String.length (offset_bits f) = 2%nat.
Proof. apply (parseMemoryAddress_fields 18 12 2). reflexivity. Defined.

Lemma parseMemoryAddress_values_witness :
  let f := parseMemoryAddress 18 12 2 "0x0023AF7C" in
  htoi "0x0023AF7C" =
    tag_value f * 2 ^ Z.of_nat (12 + 2)
    + index_value f * 2 ^ Z.of_nat 2 + offset_value f
  ∧ 0 ≤ tag_value f < 2 ^ Z.of_nat 18
  ∧ 0 ≤ index_value f < 2 ^ Z.of_nat 12
  ∧ 0 ≤ offset_value f < 2 ^ Z.of_nat 2.
Proof. apply (parseMemoryAddress_values 18 12 2); lia. Defined.

Example parseMemoryAddress_example :
  parseMemoryAddress 18 12 2 "0x0023AF7C" =
  mkFields "000000000010001110" 142 "101111011111" 3039 "00" 0.
Proof. vm_compute. reflexivity. Qed.

Lemma address_tag_eq_iff_witness :
  (address_tag 18 12 2 "0x00000000" = address_tag 18 12 2 "0x00003FFF" ↔
   htoi "0x00000000" / 2 ^ Z.of_nat (32 - 18)
   = htoi "0x00003FFF" / 2 ^ Z.of_nat (32 - 18))
  ∧ String.length (address_tag 18 12 2 "0x00000000") = 18%nat.
Proof. apply (address_tag_eq_iff 18 12 2). lia. Defined.

Lemma access_ignores_low_bits_witness :
  access 18 12 2 (full_cache 0) W "0x00000000"
  = access 18 12 2 (full_cache 0) W "0x00003FFF".
Proof.
  apply (access_ignores_low_bits 18 12 2); [lia | reflexivity].
Defined.

(** ** The cache: outcomes, residency and the order of the slots *)

Lemma scan_complete (p : option Block → bool) (bl : list (option Block))
    (n start j : nat) (slot : option Block) :
  (start ≤ j < start + n)%nat →
  bl !! j = Some slot → p slot = true →
  ∃ i, scan p bl start n = Some i.
Proof.
  intros Hj Hlook Hp. destruct (scan p bl start n) as [i|] eqn:Hscan;
    [by exists i|].
  pose proof (scan_None p bl n start j slot Hscan Hj Hlook). congruence.
Qed.

Lemma mark_dirty_slot (c : Cache) (i j : nat) (b : Block) :
  blocks c !! i = Some (Some b) →
  ∃ b', blocks (mark_dirty c j) !! i = Some (Some b') ∧
        tag b' = tag b ∧ valid b' = valid b ∧ (dirty b = 1 → dirty b' = 1).
Proof.
  intros Hi. unfold mark_dirty.
  destruct (blocks c !! j) as [[bj|]|] eqn:Hj; simpl; eauto.
  destruct (decide (i = j)) as [->|Hne].
  - rewrite list_lookup_insert_eq by (by eapply lookup_lt_Some).
    rewrite Hj in Hi. injection Hi as ->. eexists. split; [done|]. done.
  - rewrite list_lookup_insert_ne by done. eauto.
Qed.

Lemma mark_dirty_null (c : Cache) (i j : nat) :
  blocks c !! i = Some None → blocks (mark_dirty c j) !! i = Some None.
Proof.
  intros Hi. unfold mark_dirty.
  destruct (blocks c !! j) as [[bj|]|] eqn:Hj; simpl; try done.
  rewrite list_lookup_insert_ne; [done|]. congruence.
Qed.

Section Residency.

Variables TAG INDEX OFFSET : nat.

#[local] Abbreviation readFromCache := (Sim.readFromCache TAG INDEX OFFSET).
#[local] Abbreviation writeToCache := (Sim.writeToCache TAG INDEX OFFSET).
#[local] Abbreviation access := (Sim.access TAG INDEX OFFSET).
#[local] Abbreviation replay := (Sim.replay TAG INDEX OFFSET).
#[local] Abbreviation simulate := (Sim.simulate TAG INDEX OFFSET).
#[local] Abbreviation address_tag := (Util.address_tag TAG INDEX OFFSET).

Lemma outcome_by_residency (c : Cache) (m : mode) (address : string) :
  wf_cache c →
  let o := (access c m address).2 in
  let t := address_tag address in
  (o = Hit ↔ resident c t) ∧
  (o = MissInstalled ↔ ¬ resident c t ∧ ∃ i, blocks c !! i = Some None) ∧
  (o = MissDropped ↔ ¬ resident c t ∧ ∀ i, blocks c !! i ≠ Some None).
Proof.
  intros Hwf o t.
  assert (o = match scan (tag_match t) (blocks c) 0 (lines c) with
              | Some _ => Hit
              | None => match scan is_null (blocks c) 0 (lines c) with
                        | Some _ => MissInstalled
                        | None => MissDropped
                        end
              end) as Ho.
  { subst o t.
    destruct m; unfold Sim.access, Sim.readFromCache, Sim.writeToCache;
      cbv zeta; destruct (scan (tag_match _) _ _ _);
      try destruct (scan is_null _ _ _); done. }
  rewrite Ho. clear Ho o.
  destruct (scan (tag_match t) _ _ _) as [i|] eqn:Hhit.
  - apply scan_Some in Hhit as (_ & slot & Hslot & Hm).
    apply tag_match_true in Hm as (b & -> & Hv & Ht).
    assert (resident c t) by (by exists i, b).
    repeat split; try done; by intros [? _].
  - pose proof (scan_miss_not_resident c t Hwf Hhit) as Hnot.
    destruct (scan is_null _ _ _) as [k|] eqn:Hfree.
    + apply scan_Some in Hfree as (_ & slot & Hslot & Hn).
      apply is_null_true in Hn as ->.
      repeat split; try done; [by exists k|].
      intros [_ Hfull]. by destruct (Hfull k).
    + assert (∀ i, blocks c !! i ≠ Some None) as Hfull.
      { intros i Hi.
        assert (is_null None = false) as Hno; [|done].
        eapply (scan_None is_null); [exact Hfree| |exact Hi].
        apply lookup_lt_Some in Hi. unfold wf_cache in Hwf. lia. }
      repeat split; try done.
      intros [_ [i Hi]]. by destruct (Hfull i).
Qed.

(** X11.  In a cache whose array has the length its sizes give, the
    outcome of an access is decided by the tag and the slots alone: a hit
    exactly when a valid block of that tag is in some slot; an installed
    miss exactly when none is and some slot is empty; a dropped miss
    exactly when none is and no slot is empty. *)
Theorem outcome_characterised (c : Cache) (m : mode) (address : string) :
  wf_cache c →
  let o := (access c m address).2 in
  let t := address_tag address in
  (o = Hit ↔ resident c t) ∧
  (o = MissInstalled ↔ ¬ resident c t ∧ ∃ i, blocks c !! i = Some None) ∧
  (o = MissDropped ↔ ¬ resident c t ∧ ∀ i, blocks c !! i ≠ Some None).
Proof. apply outcome_by_residency. Qed.

(** An access keeps every block that is in a slot: the tag and the valid
    flag stay, a dirty flag that is set stays set, and a read changes no
    block at all. *)
Lemma access_keeps_slot (c : Cache) (m : mode) (address : string)
    (i : nat) (b : Block) :
  blocks c !! i = Some (Some b) →
  ∃ b', blocks (access c m address).1 !! i = Some (Some b') ∧
        tag b' = tag b ∧ valid b' = valid b ∧
        (dirty b = 1 → dirty b' = 1) ∧ (m = R → b' = b).
Proof.
  intros Hi.
  destruct m; unfold Sim.access, Sim.readFromCache, Sim.writeToCache;
    cbv zeta;
    destruct (scan (tag_match _) _ _ _) as [j|] eqn:Hhit;
    try destruct (scan is_null _ _ _) as [k|] eqn:Hfree; simpl;
    try (exists b; done).
  - apply scan_Some in Hfree as (_ & slot & Hslot & Hn).
    apply is_null_true in Hn as ->.
    rewrite list_lookup_insert_ne by congruence. by exists b.
  - destruct (mark_dirty_slot
                (if write_policy c =? 0 then incr_writes c else c) i j b)
      as (b' & Hb' & Ht & Hv & Hd); [by destruct (write_policy c =? 0)|].
    exists b'. done.
  - apply scan_Some in Hfree as (_ & slot & Hslot & Hn).
    apply is_null_true in Hn as ->.
    rewrite list_lookup_insert_ne by congruence. by exists b.
Qed.

Lemma replay_keeps_slot (c : Cache) (trace : list (mode * string))
    (i : nat) (b : Block) :
  blocks c !! i = Some (Some b) →
  ∃ b', blocks (replay c trace).1 !! i = Some (Some b') ∧
        tag b' = tag b ∧ valid b' = valid b ∧
        (dirty b = 1 → dirty b' = 1).
Proof.
  revert c b. induction trace as [|[m address] rest IH]; intros c b Hi.
  - exists b. done.
  - rewrite replay_cons. simpl fst.
    destruct (access_keeps_slot c m address i b Hi)
      as (b1 & H1 & Ht1 & Hv1 & Hd1 & _).
    destruct (IH _ _ H1) as (b2 & H2 & Ht2 & Hv2 & Hd2).
    exists b2. repeat split; [done|congruence|congruence|tauto].
Qed.

(** X12.  Nothing is ever evicted: a block that is in a slot at some
    point of a run is in the same slot at every later point, with the same
    tag and valid flag, and once its dirty flag is set it stays set. *)
Theorem slot_kept_forever (c : Cache) (trace : list (mode * string))
    (i : nat) (b : Block) :
  blocks c !! i = Some (Some b) →
  ∃ b', blocks (replay c trace).1 !! i = Some (Some b') ∧
        tag b' = tag b ∧ valid b' = valid b ∧
        (dirty b = 1 → dirty b' = 1).
Proof. apply replay_keeps_slot. Qed.

(** X13.  A read changes no block that is in the cache: after a read,
    every occupied slot holds the very block it held, flags included. *)
Theorem read_keeps_blocks (c : Cache) (address : string) (i : nat)
    (b : Block) :
  blocks c !! i = Some (Some b) →
  blocks (readFromCache c address).1 !! i = Some (Some b).
Proof.
  intros Hi.
  destruct (access_keeps_slot c R address i b Hi)
    as (b' & Hb' & _ & _ & _ & Heq).
  rewrite (Heq eq_refl) in Hb'. exact Hb'.
Qed.

Lemma replay_wf (c : Cache) (trace : list (mode * string)) :
  wf_cache c → wf_cache (replay c trace).1.
Proof.
  apply (replay_preserves TAG INDEX OFFSET wf_cache).
  intros c' m address. apply access_wf.
Qed.

Lemma resident_kept (c : Cache) (trace : list (mode * string))
    (t : string) :
  resident c t → resident (replay c trace).1 t.
Proof.
  intros (i & b & Hi & Hv & Ht).
  destruct (replay_keeps_slot c trace i b Hi) as (b' & Hb' & Ht' & Hv' & _).
  exists i, b'. repeat split; [done|congruence|congruence].
Qed.

(** An access that is not dropped leaves the tag of its address
    resident. *)
Lemma access_makes_resident (c : Cache) (m : mode) (address : string) :
  (access c m address).2 ≠ MissDropped →
  resident (access c m address).1 (address_tag address).
Proof.
  destruct m; unfold Sim.access, Sim.readFromCache, Sim.writeToCache;
    cbv zeta;
    destruct (scan (tag_match _) _ _ _) as [j|] eqn:Hhit;
    try destruct (scan is_null _ _ _) as [k|] eqn:Hfree; simpl;
    try done; intros _.
  - apply scan_Some in Hhit as (_ & slot & Hslot & Hm).
    apply tag_match_true in Hm as (b & -> & Hv & Ht). by exists j, b.
  - apply scan_Some in Hfree as (_ & slot & Hslot & _).
    eexists k, _. simpl.
    rewrite list_lookup_insert_eq by (by eapply lookup_lt_Some). done.
  - apply scan_Some in Hhit as (_ & slot & Hslot & Hm).
    apply tag_match_true in Hm as (b & -> & Hv & Ht).
    destruct (mark_dirty_slot
                (if write_policy c =? 0 then incr_writes c else c) j j b)
      as (b' & Hb' & Ht' & Hv' & _); [by destruct (write_policy c =? 0)|].
    exists j, b'. repeat split; [done|congruence|congruence].
  - apply scan_Some in Hfree as (_ & slot & Hslot & _).
    eexists k, _. simpl.
    rewrite list_lookup_insert_eq by (by eapply lookup_lt_Some). done.
Qed.

(** X14.  Once an access to an address was a hit or an installed miss,
    every later access to an address of the same tag is a hit, in either
    mode and whatever accesses come between. *)
Theorem hit_ever_after (c : Cache) (m m' : mode) (address address' : string)
    (between : list (mode * string)) :
  wf_cache c →
  (access c m address).2 ≠ MissDropped →
  address_tag address' = address_tag address →
  (access (replay (access c m address).1 between).1 m' address').2 = Hit.
Proof.
  intros Hwf Hkept Htag.
  apply outcome_by_residency.
  - apply replay_wf. by apply access_wf.
  - rewrite Htag. apply resident_kept. by apply access_makes_resident.
Qed.

End Residency.

Lemma outcome_characterised_witness :
  let o := (access 18 12 2 (full_cache 0) R "0x00000001").2 in
  let t := address_tag 18 12 2 "0x00000001" in
  (o = Hit ↔ resident (full_cache 0) t) ∧
  (o = MissInstalled ↔
   ¬ resident (full_cache 0) t ∧ ∃ i, blocks (full_cache 0) !! i = Some None) ∧
  (o = MissDropped ↔
   ¬ resident (full_cache 0) t ∧ ∀ i, blocks (full_cache 0) !! i ≠ Some None).
Proof. apply (outcome_characterised 18 12 2). reflexivity. Defined.

Lemma slot_kept_forever_witness :
  ∃ b', blocks (replay 18 12 2 (full_cache 0) sample_trace).1 !! 0%nat
        = Some (Some b') ∧
        tag b' = "000000000000000000"%string ∧ valid b' = 1 ∧
        (0 = 1 → dirty b' = 1).
Proof.
  apply (slot_kept_forever 18 12 2 (full_cache 0) sample_trace 0
           (mkBlock 1 "000000000000000000" 0)).
  reflexivity.
Defined.

Lemma read_keeps_blocks_witness :
  blocks (readFromCache 18 12 2 (full_cache 0) "0xFFFFFFFF").1 !! 0%nat
  = Some (Some (mkBlock 1 "000000000000000000" 0)).
Proof. apply (read_keeps_blocks 18 12 2). reflexivity. Defined.

Lemma hit_ever_after_witness :
  (access 18 12 2
     (replay 18 12 2
        (access 18 12 2 (mkCache 0 0 0 0 8 4 0 [None; None]) W
           "0x1A2B3C4D").1
        sample_trace).1
     R "0x1A2B3FFF").2 = Hit.
Proof.
  apply (hit_ever_after 18 12 2); [reflexivity | | reflexivity].
  vm_compute. discriminate.
Defined.

(** ** The cache over a run: shape, fill order and counters *)

Import Inv.

Section Shape.

Variables TAG INDEX OFFSET : nat.

#[local] Abbreviation readFromCache := (Sim.readFromCache TAG INDEX OFFSET).
#[local] Abbreviation writeToCache := (Sim.writeToCache TAG INDEX OFFSET).
#[local] Abbreviation access := (Sim.access TAG INDEX OFFSET).
#[local] Abbreviation replay := (Sim.replay TAG INDEX OFFSET).
#[local] Abbreviation simulate := (Sim.simulate TAG INDEX OFFSET).
#[local] Abbreviation address_tag := (Util.address_tag TAG INDEX OFFSET).

Lemma replay_keeps_configuration (cs bs wp : Z) (trace : list (mode * string))
    (c : Cache) (os : list outcome) :
  simulate cs bs wp trace = Some (c, os) →
  cache_size c = cs ∧ block_size c = bs ∧ write_policy c = wp ∧
  length (blocks c) = Z.to_nat (cs / bs).
Proof.
  intros (c0 & Hc0 & -> & _)%simulate_Some.
  apply createCache_Some in Hc0 as (Hcs & Hbs & _ & ->).
  rewrite <- Z.quot_div_nonneg by lia.
  apply (replay_preserves TAG INDEX OFFSET
    (λ c, cache_size c = cs ∧ block_size c = bs ∧ write_policy c = wp ∧
          length (blocks c) = Z.to_nat (cs ÷ bs))).
  - intros c m address (H1 & H2 & H3 & H4).
    pose proof (access_effect TAG INDEX OFFSET c m address)
      as (_ & _ & _ & _ & Hcs' & Hbs' & Hwp' & Hlen').
    cbv zeta in *. repeat split; congruence.
  - simpl. repeat split. apply length_replicate.
Qed.

(** X15.  A run changes neither the sizes nor the write policy of the
    cache nor the number of its slots, which stays the quotient of the
    cache size by the block size, rounded down. *)
Theorem configuration_is_fixed (cs bs wp : Z) (trace : list (mode * string))
    (c : Cache) (os : list outcome) :
  simulate cs bs wp trace = Some (c, os) →
  cache_size c = cs ∧ block_size c = bs ∧ write_policy c = wp ∧
  length (blocks c) = Z.to_nat (cs / bs).
Proof. apply replay_keeps_configuration. Qed.

(** An access keeps the occupied slots in front: a hit keeps their number
    and the miss counter, an installed miss takes the first empty slot and
    adds one to both. *)
Lemma access_filled (c : Cache) (m : mode) (address : string) (n : nat) :
  wf_cache c → filled_to c n → Z.of_nat n = misses c →
  ∃ n', filled_to (access c m address).1 n' ∧
        Z.of_nat n' = misses (access c m address).1.
Proof.
  intros Hwf (Hn & Hocc & Hfree) Hmiss.
  assert (∀ c1 j, blocks c1 = blocks c → misses c1 = misses c →
            ∃ n', filled_to (incr_hits (mark_dirty c1 j)) n' ∧
                  Z.of_nat n' = misses (incr_hits (mark_dirty c1 j)))
    as Hdirty.
  { intros c1 j Hbl Hm. exists n.
    pose proof (mark_dirty_frame c1 j) as (_ & Hm' & _ & _ & _ & _ & _ & Hl).
    split; [|simpl; lia].
    unfold filled_to. simpl. rewrite Hl, Hbl.
    split; [done|]. split.
    - intros i Hi. destruct (Hocc i Hi) as [b Hb].
      destruct (mark_dirty_slot c1 i j b) as (b' & Hb' & _);
        [by rewrite Hbl|]. by exists b'.
    - intros i Hi. apply mark_dirty_null. rewrite Hbl. by apply Hfree. }
  assert (∀ k newBlock,
            scan is_null (blocks c) 0 (lines c) = Some k →
            ∃ n', filled_to (install c k newBlock) n' ∧
                  Z.of_nat n' = misses (install c k newBlock))
    as Hinstall.
  { intros k newBlock Hscan.
    pose proof (scan_first is_null _ _ _ _ n None Hscan) as Hfirst.
    apply scan_Some in Hscan as (_ & slot & Hslot & Hnull).
    apply is_null_true in Hnull as ->.
    pose proof (lookup_lt_Some _ _ _ Hslot) as Hk.
    assert (k = n) as ->.
    { destruct (decide (k < n)%nat) as [Hlt|Hge].
      - destruct (Hocc k Hlt) as [b Hb]. congruence.
      - destruct (decide (n < k)%nat) as [Hgt|]; [|lia].
        assert (is_null None = false) as Habs; [|done].
        apply Hfirst; [lia|]. apply Hfree. lia. }
    exists (S n). split; [|simpl; lia].
    unfold filled_to, install. simpl. rewrite length_insert.
    split; [lia|]. split.
    - intros i Hi. destruct (decide (i = n)) as [->|Hne].
      + rewrite list_lookup_insert_eq by done. by eexists.
      + rewrite list_lookup_insert_ne by done. apply Hocc. lia.
    - intros i Hi. rewrite list_lookup_insert_ne by lia.
      apply Hfree. lia. }
  destruct m; unfold Sim.access, Sim.readFromCache, Sim.writeToCache;
    cbv zeta;
    destruct (scan (tag_match _) _ _ _) as [j|] eqn:Hhit;
    try destruct (scan is_null _ _ _) as [k|] eqn:Hnull; simpl fst;
    try (by apply Hinstall); try (by exists n).
  all: apply Hdirty; by destruct (write_policy c =? 0).
Qed.

(** X16.  After a run from construction the occupied slots are the first
    ones, as many as the miss counter says, and the miss counter (like
    the memory-read counter) is at most the number of lines of the
    cache. *)
Theorem slots_fill_in_order (cs bs wp : Z) (trace : list (mode * string))
    (c : Cache) (os : list outcome) :
  simulate cs bs wp trace = Some (c, os) →
  filled_to c (Z.to_nat (misses c)) ∧ 0 ≤ misses c ≤ cs / bs.
Proof.
  intros Hsim.
  pose proof (replay_keeps_configuration _ _ _ _ _ _ Hsim)
    as (_ & _ & _ & Hlen).
  apply simulate_Some in Hsim as (c0 & Hc0 & -> & _).
  pose proof (createCache_wf _ _ _ _ Hc0) as Hwf0.
  apply createCache_Some in Hc0 as (Hcs & Hbs & _ & ->).
  set (c0 := mkCache 0 0 0 0 cs bs wp _) in *.
  assert (∃ n, filled_to (replay c0 trace).1 n ∧
               Z.of_nat n = misses (replay c0 trace).1) as (n & Hfill & Hn).
  { apply (replay_preserves TAG INDEX OFFSET
      (λ c, wf_cache c ∧ ∃ n, filled_to c n ∧ Z.of_nat n = misses c)).
    - intros c m address (Hwf & n & Hfill & Hn). split.
      + by apply access_wf.
      + by eapply access_filled.
    - split; [done|]. exists 0%nat. split; [|done].
      unfold filled_to, c0. simpl. rewrite length_replicate.
      split; [lia|]. split; [lia|].
      intros i Hi. apply lookup_replicate_2. lia. }
  rewrite <- Hn, Nat2Z.id. split; [done|].
  destruct Hfill as (Hle & _). rewrite Hlen in Hle.
  assert (0 ≤ cs / bs) by (apply Z.div_pos; lia). lia.
Qed.

(** X17.  Every block that a run from construction puts in a slot has its
    valid flag at 1, a dirty flag of 0 or 1 and, for a tag of at most 32
    bits, a tag of [TAG] characters. *)
Theorem blocks_are_valid (cs bs wp : Z) (trace : list (mode * string))
    (c : Cache) (os : list outcome) (i : nat) (b : Block) :
  (TAG ≤ 32)%nat →
  simulate cs bs wp trace = Some (c, os) →
  blocks c !! i = Some (Some b) →
  valid b = 1 ∧ (dirty b = 0 ∨ dirty b = 1) ∧ String.length (tag b) = TAG.
Proof.
  intros Ht (c0 & Hc0 & -> & _)%simulate_Some. revert i b.
  apply (replay_preserves TAG INDEX OFFSET
    (λ c, ∀ i b, blocks c !! i = Some (Some b) →
          valid b = 1 ∧ (dirty b = 0 ∨ dirty b = 1)
          ∧ String.length (tag b) = TAG)).
  - intros c m address Hinv i b.
    assert (∀ k d, d = 0 ∨ d = 1 →
              blocks (install c k (mkBlock 1 (address_tag address) d)) !! i
              = Some (Some b) →
              valid b = 1 ∧ (dirty b = 0 ∨ dirty b = 1)
              ∧ String.length (tag b) = TAG) as Hinstall.
    { intros k d Hd. unfold install. simpl. intros Hb.
      apply list_lookup_insert_Some in Hb as [(_ & [= <-] & _)|(_ & Hb)];
        [|by apply (Hinv i)].
      simpl. repeat split; [done|].
      by apply (address_tag_same_iff TAG INDEX OFFSET address address). }
    destruct m; unfold Sim.access, Sim.readFromCache, Sim.writeToCache;
      cbv zeta;
      destruct (scan (tag_match _) _ _ _) as [j|] eqn:Hhit;
      try destruct (scan is_null _ _ _) as [k|] eqn:Hnull; simpl fst;
      try (by apply (Hinv i)); try (apply Hinstall; lia).
    simpl. unfold mark_dirty.
    replace (blocks (if write_policy c =? 0 then incr_writes c else c))
      with (blocks c) by (by destruct (write_policy c =? 0)).
    destruct (blocks c !! j) as [[bj|]|] eqn:Hj; simpl;
      try (destruct (write_policy c =? 0); by apply (Hinv i)).
    replace (blocks (if write_policy c =? 0 then incr_writes c else c))
      with (blocks c) by (by destruct (write_policy c =? 0)).
    intros Hb.
    apply list_lookup_insert_Some in Hb as [(_ & [= <-] & _)|(_ & Hb)];
      [|by apply (Hinv i)].
    destruct (Hinv j bj Hj) as (Hv & _ & Hl). simpl. auto.
  - apply createCache_Some in Hc0 as (_ & _ & _ & ->). simpl.
    intros i b Hb. apply lookup_replicate in Hb as [? _]. done.
Qed.

End Shape.

Lemma configuration_is_fixed_witness :
  ∃ (c : Cache) (os : list outcome),
    simulate 18 12 2 9 4 1 sample_trace = Some (c, os)
    ∧ cache_size c = 9 ∧ block_size c = 4 ∧ write_policy c = 1
    ∧ length (blocks c) = Z.to_nat (9 / 4).
Proof.
  eexists _, _. split.
  - vm_compute. reflexivity.
  - refine (configuration_is_fixed 18 12 2 9 4 1 sample_trace _ _ _).
    vm_compute. reflexivity.
Defined.

Lemma slots_fill_in_order_witness :
  ∃ (c : Cache) (os : list outcome),
    simulate 18 12 2 12 4 0 sample_trace = Some (c, os)
    ∧ filled_to c (Z.to_nat (misses c)) ∧ 0 ≤ misses c ≤ 12 / 4.
Proof.
  eexists _, _. split.
  - vm_compute. reflexivity.
  - refine (slots_fill_in_order 18 12 2 12 4 0 sample_trace _ _ _).
    vm_compute. reflexivity.
Defined.

Lemma blocks_are_valid_witness :
  ∃ (c : Cache) (os : list outcome) (b : Block),
    simulate 18 12 2 8 4 0 sample_trace = Some (c, os)
    ∧ blocks c !! 1%nat = Some (Some b)
    ∧ valid b = 1 ∧ (dirty b = 0 ∨ dirty b = 1)
    ∧ String.length (tag b) = 18%nat.
Proof.
  eexists _, _, _. split; [vm_compute; reflexivity|].
  split; [reflexivity|].
  refine (blocks_are_valid 18 12 2 8 4 0 sample_trace _ _ 1 _ _ _ _);
    [lia | vm_compute; reflexivity | reflexivity].
Defined.

Section Counters.

Variables TAG INDEX OFFSET : nat.

#[local] Abbreviation writeToCache := (Sim.writeToCache TAG INDEX OFFSET).
#[local] Abbreviation access := (Sim.access TAG INDEX OFFSET).
#[local] Abbreviation replay := (Sim.replay TAG INDEX OFFSET).
#[local] Abbreviation simulate := (Sim.simulate TAG INDEX OFFSET).
#[local] Abbreviation address_tag := (Util.address_tag TAG INDEX OFFSET).


(** X19.  No counter ever decreases: each of the four counters is, at the
    end of any run, at least what it was at the start. *)
Theorem counters_never_decrease (c : Cache) (trace : list (mode * string)) :
  hits c ≤ hits (replay c trace).1 ∧
  misses c ≤ misses (replay c trace).1 ∧
  reads c ≤ reads (replay c trace).1 ∧
  writes c ≤ writes (replay c trace).1.
Proof.
  pose proof (replay_counters TAG INDEX OFFSET trace c) as (Hh & Hm & Hr & _).
  pose proof (replay_writes_range TAG INDEX OFFSET trace c) as Hw.
  pose proof (count_outcome_bounds Hit (replay c trace).2).
  pose proof (count_outcome_bounds MissInstalled (replay c trace).2).
  cbv zeta in *. lia.
Qed.

Lemma replay_write_hits (trace : list (mode * string)) (c : Cache) :
  write_policy c = 0 →
  writes (replay c trace).1 =
  writes c + count_write_hits trace (replay c trace).2.
Proof.
  revert c. induction trace as [|[m address] rest IH]; intros c Hwt.
  - simpl. lia.
  - rewrite replay_cons. simpl fst. simpl snd.
    pose proof (access_effect TAG INDEX OFFSET c m address)
      as (_ & _ & _ & Hw & _ & _ & Hp & _).
    cbv zeta in Hw, Hp. rewrite IH by congruence.
    rewrite Hw, Hwt. unfold writes_gain. cbn [count_write_hits].
    destruct m, (Sim.access TAG INDEX OFFSET c _ address).2; simpl; lia.
Qed.

(** X20.  Under write through, the memory-write counter at the end of a
    run from construction is the number of writes that hit. *)
Theorem write_through_counts_write_hits (cs bs : Z)
    (trace : list (mode * string)) (c : Cache) (os : list outcome) :
  simulate cs bs 0 trace = Some (c, os) →
  writes c = count_write_hits trace os.
Proof.
  intros (c0 & Hc0 & -> & ->)%simulate_Some.
  apply createCache_Some in Hc0 as (_ & _ & _ & ->).
  rewrite replay_write_hits by done. simpl. lia.
Qed.

(** X21.  A write that is not dropped leaves a valid, dirty block of the
    tag of its address in the cache, under either policy. *)
Theorem write_leaves_dirty_block (c : Cache) (address : string) :
  (writeToCache c address).2 ≠ MissDropped →
  ∃ (i : nat) (b : Block),
    blocks (writeToCache c address).1 !! i = Some (Some b) ∧
    valid b = 1 ∧ tag b = address_tag address ∧ dirty b = 1.
Proof.
  unfold Sim.writeToCache; cbv zeta;
    destruct (scan (tag_match _) _ _ _) as [j|] eqn:Hhit;
    try destruct (scan is_null _ _ _) as [k|] eqn:Hfree; simpl;
    try done; intros _.
  - apply scan_Some in Hhit as (_ & slot & Hslot & Hm).
    apply tag_match_true in Hm as (b & -> & Hv & Ht).
    exists j, (mkBlock (valid b) (tag b) 1). unfold mark_dirty.
    replace (blocks (if write_policy c =? 0 then incr_writes c else c))
      with (blocks c) by (by destruct (write_policy c =? 0)).
    rewrite Hslot. simpl.
    replace (blocks (if write_policy c =? 0 then incr_writes c else c))
      with (blocks c) by (by destruct (write_policy c =? 0)).
    rewrite list_lookup_insert_eq by (by eapply lookup_lt_Some). done.
  - apply scan_Some in Hfree as (_ & slot & Hslot & _).
    eexists k, _.
    rewrite list_lookup_insert_eq by (by eapply lookup_lt_Some). done.
Qed.

End Counters.

Lemma write_through_counts_write_hits_witness :
  ∃ (c : Cache) (os : list outcome),
    simulate 18 12 2 8 4 0 sample_trace = Some (c, os)
    ∧ writes c = count_write_hits sample_trace os.
Proof.
  eexists _, _. split.
  - vm_compute. reflexivity.
  - refine (write_through_counts_write_hits 18 12 2 8 4 sample_trace _ _ _).
    vm_compute. reflexivity.
Defined.

Lemma write_leaves_dirty_block_witness :
  ∃ (i : nat) (b : Block),
    blocks (writeToCache 18 12 2 (full_cache 1) "0x00000002").1 !! i
    = Some (Some b) ∧
    valid b = 1 ∧ tag b = address_tag 18 12 2 "0x00000002" ∧ dirty b = 1.
Proof.
  apply (write_leaves_dirty_block 18 12 2). vm_compute. discriminate.
Defined.

(** ** [main]: the lines of the trace *)

Import Main.

Lemma length_append (s1 s2 : string) :
  String.length (s1 +:+ s2) = (String.length s1 + String.length s2)%nat.
Proof. induction s1 as [|c s1 IH]; simpl; [done|]. by rewrite IH. Qed.

Lemma nul_free_append (s1 s2 : string) :
  nul_free (s1 +:+ s2) = nul_free s1 && nul_free s2.
Proof.
  induction s1 as [|c s1 IH]; simpl; [done|].
  rewrite IH. by rewrite andb_assoc.
Qed.

Lemma after_space_append (first rest : string) :
  space_free first = true →
  after_space (first +:+ String " " rest) = Some rest.
Proof.
  induction first as [|c first IH]; simpl; [done|].
  intros [Hc Hfirst]%andb_true_iff. apply negb_true_iff in Hc.
  rewrite Hc. by apply IH.
Qed.

Lemma drop_last_snoc (str : string) (c : ascii) :
  drop_last (str +:+ String c "") = str.
Proof.
  unfold drop_last. rewrite length_append. simpl.
  replace (String.length str + 1 - 1)%nat with (String.length str) by lia.
  apply substring_app_l.
Qed.

Lemma trace_line_eq (first : string) (m : mode) (address : string) :
  trace_line first m address =
  (first +:+ String " " (String (mode_char m)
     ((String " " address) +:+ String (ascii_of_nat 10) "")))%string.
Proof. by destruct m. Qed.

Lemma parse_trace_line (first : string) (m : mode) (address : string) :
  well_formed first address = true →
  is_comment (trace_line first m address) = false ∧
  parse_line (trace_line first m address)
  = Some (mode_char m, String " " address).
Proof.
  unfold well_formed. intros H.
  apply andb_true_iff in H as [H Hlen].
  apply andb_true_iff in H as [H Haddr].
  apply andb_true_iff in H as [H Hcom].
  apply andb_true_iff in H as [Hsp Hnul].
  apply negb_true_iff in Hcom. apply Nat.leb_le in Hlen.
  rewrite trace_line_eq. split.
  - destruct first as [|c first]; [reflexivity|exact Hcom].
  - unfold parse_line. rewrite until_nul_free.
    + rewrite after_space_append by done.
      rewrite length_append. cbn [String.length].
      replace (1 <=? S (String.length address) + 1)%nat with true
        by (symmetry; apply Nat.leb_le; lia).
      replace (S (String.length address) + 1 <=? 100)%nat with true
        by (symmetry; apply Nat.leb_le; lia).
      simpl andb. cbv iota. by rewrite drop_last_snoc.
    + rewrite nul_free_append, Hnul. cbn [nul_free andb].
      rewrite nul_free_append. cbn [nul_free]. rewrite Haddr.
      by destruct m.
Qed.

Section MainLoop.

Variables TAG INDEX OFFSET : nat.
Variables CACHE_SIZE BLOCK_SIZE : Z.

#[local] Abbreviation access := (Sim.access TAG INDEX OFFSET).
#[local] Abbreviation replay := (Sim.replay TAG INDEX OFFSET).
#[local] Abbreviation simulate := (Sim.simulate TAG INDEX OFFSET).
#[local] Abbreviation main_loop := (Main.main_loop TAG INDEX OFFSET).
#[local] Abbreviation main :=
  (Main.main TAG INDEX OFFSET CACHE_SIZE BLOCK_SIZE).

(** The space that [main] leaves before the address does no harm. *)
Lemma access_leading_space (c : Cache) (m : mode) (address : string) :
  access c m (String " " address) = access c m address.
Proof.
  assert (htoi (String " " address) = htoi address) as Hhtoi
    by (by apply (htoi_skips_ignorable " " address)).
  destruct m; unfold Sim.access, Sim.readFromCache, Sim.writeToCache,
    Util.address_tag; cbv zeta; by rewrite Hhtoi.
Qed.

Lemma main_loop_trace_lines (entries : list (string * mode * string))
    (more : list string) (c : Cache) (counter : Z) :
  all_well_formed entries = true →
  main_loop (Some c) counter (trace_lines entries ++ more) =
  main_loop (Some (replay c (trace_accesses entries)).1)
    (counter + Z.of_nat (length entries)) more.
Proof.
  revert c counter.
  induction entries as [|[[first m] address] entries IH]; intros c counter.
  - intros _. simpl. by rewrite Z.add_0_r.
  - intros [Hwf Hrest]%andb_true_iff. simpl in Hwf.
    destruct (parse_trace_line first m address Hwf) as [Hcom Hparse].
    unfold trace_lines, trace_accesses in *.
    cbn [map app fst snd Main.main_loop]. rewrite Hcom, Hparse.
    rewrite replay_cons. cbn [fst].
    replace (counter + Z.of_nat (length ((first, m, address) :: entries)))
      with (counter + 1 + Z.of_nat (length entries))
      by (simpl length; lia).
    rewrite <- IH by done.
    pose proof (access_leading_space c m address) as Hsp.
    destruct m; simpl in Hsp |- *; unfold guarded.
    + destruct (Sim.readFromCache _ _ _ c (String " " address)) eqn:E.
      rewrite <- Hsp. done.
    + destruct (Sim.writeToCache _ _ _ c (String " " address)) eqn:E.
      rewrite <- Hsp. done.
Qed.

(** X22.  On a trace of well-formed lines (first field, mode R or W,
    address, each after one space), [main] under policy "wt" or "wb"
    prints the four counters that the replay of the accesses leaves in the
    cache made by [createCache (CACHE_SIZE, BLOCK_SIZE, policy)], and
    returns 1. *)
Theorem main_prints_the_counters (prog policy path : string) (wp : Z)
    (entries : list (string * mode * string)) (c : Cache)
    (os : list outcome) :
  (policy = "wt"%string ∧ wp = 0) ∨ (policy = "wb"%string ∧ wp = 1) →
  all_well_formed entries = true →
  simulate CACHE_SIZE BLOCK_SIZE wp (trace_accesses entries) = Some (c, os) →
  main [prog; policy; path] (Some (trace_lines entries))
  = Statistics (hits c) (misses c) (reads c) (writes c)
  ∧ exit_code (main [prog; policy; path] (Some (trace_lines entries)))
    = Some 1.
Proof.
  intros Hpolicy Hwf (c0 & Hc0 & -> & _)%simulate_Some.
  assert (main [prog; policy; path] (Some (trace_lines entries))
          = main_loop (Some c0) 0 (trace_lines entries ++ [])) as ->.
  { rewrite app_nil_r. unfold Main.main.
    destruct Hpolicy as [[-> ->]|[-> ->]]; simpl; by rewrite Hc0. }
  rewrite main_loop_trace_lines by done. done.
Qed.

(** X23.  Lines that begin with '#' take no part in a run, the line
    "#eof" like any other: [main] goes on with the lines after it, and the
    result is that of the trace without its '#' lines. *)
Theorem comment_lines_are_skipped (cache : option Cache) (counter : Z)
    (buffers : list string) :
  main_loop cache counter
    (List.filter (λ buffer, negb (is_comment buffer)) buffers)
  = main_loop cache counter buffers.
Proof.
  revert cache counter.
  induction buffers as [|buffer rest IH]; intros cache counter; [done|].
  cbn [List.filter Main.main_loop].
  destruct (is_comment buffer) eqn:Hcom; cbn [negb].
  - apply IH.
  - cbn [Main.main_loop]. rewrite Hcom.
    destruct (parse_line buffer) as [[mode address]|]; [|done].
    destruct (char_code mode =? 82); [apply IH|].
    destruct (char_code mode =? 87); [apply IH|done].
Qed.

(** X24.  A line whose mode is neither R nor W ends the run: after a
    trace of well-formed lines, [main] reports the number of accesses made
    so far, prints no counter, reads no further line and returns 0. *)
Theorem bad_mode_ends_the_run (entries : list (string * mode * string))
    (bad : string) (mode : ascii) (address : string) (more : list string)
    (c : Cache) :
  all_well_formed entries = true →
  is_comment bad = false →
  parse_line bad = Some (mode, address) →
  char_code mode ≠ 82 → char_code mode ≠ 87 →
  main_loop (Some c) 0 (trace_lines entries ++ bad :: more)
  = BadMode (Z.of_nat (length entries))
  ∧ exit_code (BadMode (Z.of_nat (length entries))) = Some 0.
Proof.
  intros Hwf Hcom Hparse HR HW.
  rewrite main_loop_trace_lines by done.
  cbn [Main.main_loop]. rewrite Hcom, Hparse.
  apply Z.eqb_neq in HR, HW. rewrite HR, HW. done.
Qed.

(** X25.  In a line that begins with the mode letter ("M address"), the
    character that [main] takes for the mode is the first character of the
    address: unless the address begins with R or W, the run ends there with
    the error, whatever the letter [m] is. *)
Theorem mode_letter_first_is_misread (cache : option Cache) (counter : Z)
    (m d : ascii) (rest : string) (more : list string) :
  char_code m ≠ 0 → char_code m ≠ 32 → char_code m ≠ 35 →
  nul_free (String d rest) = true →
  (String.length rest ≤ 99)%nat →
  char_code d ≠ 82 → char_code d ≠ 87 →
  parse_line (String m (String " " (String d rest))
              +:+ String (ascii_of_nat 10) "")
  = Some (d, rest)
  ∧ main_loop cache counter
      ((String m (String " " (String d rest))
        +:+ String (ascii_of_nat 10) "") :: more)
    = BadMode counter.
Proof.
  intros Hm0 Hm32 Hm35 Hnul Hlen HR HW.
  apply Z.eqb_neq in Hm0, Hm32, Hm35, HR, HW.
  change (String m (String " " (String d rest))
          +:+ String (ascii_of_nat 10) "")
    with (String m (String " " (String d
            (rest +:+ String (ascii_of_nat 10) "")))).
  set (line := String m _).
  assert (parse_line line = Some (d, rest)) as Hparse.
  { unfold parse_line, line. rewrite until_nul_free.
    - cbn [after_space]. rewrite Hm32.
      change (char_code " " =? 32) with true. cbv iota.
      rewrite length_append. cbn [String.length].
      replace (1 <=? String.length rest + 1)%nat with true
        by (symmetry; apply Nat.leb_le; lia).
      replace (String.length rest + 1 <=? 100)%nat with true
        by (symmetry; apply Nat.leb_le; lia).
      simpl andb. cbv iota. by rewrite drop_last_snoc.
    - cbn [nul_free]. rewrite Hm0.
      change (char_code " " =? 0) with false. cbn [negb andb].
      simpl in Hnul. apply andb_true_iff in Hnul as [Hd Hrest].
      rewrite Hd. cbn [andb]. rewrite nul_free_append, Hrest. done. }
  split; [done|].
  cbn [Main.main_loop]. rewrite Hparse.
  unfold line. cbn [is_comment]. rewrite Hm35, HR, HW. done.
Qed.

End MainLoop.

(** A trace in the format the source reads, with comment lines, on a cache
    of two lines of 4 bytes. *)
Example main_on_a_trace :
  main 18 12 2 8 4 ["sim"; "wt"; "trace.txt"]%string
    (Some ["# a trace";
           trace_line "0x804ae19:" W "0x00000001";
           trace_line "0x804ae1c:" W "0x00000001";
           "#eof";
           trace_line "0x804ae20:" R "0x1A2B3C4D"]%string)
  = Statistics 1 2 2 1.
Proof. vm_compute. reflexivity. Qed.

Lemma main_prints_the_counters_witness :
  main 18 12 2 8 4 ["sim"; "wb"; "trace.txt"]%string
    (Some (trace_lines [("0x804ae19:", W, "0x00000001");
                        ("0x804ae1c:", W, "0x00000001");
                        ("0x804ae20:", R, "0x1A2B3C4D")]%string))
  = Statistics 1 2 2 0.
Proof.
  refine (proj1 (main_prints_the_counters 18 12 2 8 4 "sim" "wb" "trace.txt"
            1 [("0x804ae19:", W, "0x00000001");
               ("0x804ae1c:", W, "0x00000001");
               ("0x804ae20:", R, "0x1A2B3C4D")]%string
            (mkCache 1 2 2 0 8 4 1 _) _ _ _ _)).
  - right. split; reflexivity.
  - reflexivity.
  - vm_compute. reflexivity.
Defined.

Lemma bad_mode_ends_the_run_witness :
  main_loop 18 12 2 (Some (mkCache 0 0 0 0 8 4 0 [None; None])) 0
    (trace_lines [("0x804ae19:", W, "0x00000001")]%string
     ++ ("0x804ae1c: X 0x00000001" +:+ String (ascii_of_nat 10) "")%string
        :: [trace_line "0x804ae20:" R "0x1A2B3C4D"])
  = BadMode 1.
Proof.
  refine (proj1 (bad_mode_ends_the_run 18 12 2
            [("0x804ae19:", W, "0x00000001")]%string _ "X"%char
            " 0x00000001"%string _ _ _ _ _ _ _)).
  - reflexivity.
  - reflexivity.
  - reflexivity.
  - vm_compute. discriminate.
  - vm_compute. discriminate.
Defined.

Lemma mode_letter_first_is_misread_witness :
  main_loop 18 12 2 (Some (mkCache 0 0 0 0 8 4 0 [None; None])) 0
    ((String "R" (String " " (String "0" "x1A2B3C4D"))
      +:+ String (ascii_of_nat 10) "")%string :: [])
  = BadMode 0.
Proof.
  refine (proj2 (mode_letter_first_is_misread 18 12 2 _ 0 "R"%char "0"%char
            "x1A2B3C4D"%string [] _ _ _ _ _ _ _)).
  - vm_compute. discriminate.
  - vm_compute. discriminate.
  - vm_compute. discriminate.
  - reflexivity.
  - simpl. lia.
  - vm_compute. discriminate.
  - vm_compute. discriminate.
Defined.

(** ** Capacity: when nothing is dropped *)

Section Capacity.

Variables TAG INDEX OFFSET : nat.

#[local] Abbreviation access := (Sim.access TAG INDEX OFFSET).
#[local] Abbreviation replay := (Sim.replay TAG INDEX OFFSET).
#[local] Abbreviation simulate := (Sim.simulate TAG INDEX OFFSET).
#[local] Abbreviation address_tag := (Util.address_tag TAG INDEX OFFSET).

Lemma replay_accounting (cs bs wp : Z) (trace : list (mode * string))
    (c : Cache) (os : list outcome) :
  simulate cs bs wp trace = Some (c, os) →
  hits c + misses c + count_outcome MissDropped os
  = Z.of_nat (length trace).
Proof.
  intros (c0 & Hc0 & -> & ->)%simulate_Some.
  apply createCache_Some in Hc0 as (_ & _ & _ & ->).
  set (c0 := mkCache 0 0 0 0 cs bs wp _).
  pose proof (replay_counters TAG INDEX OFFSET trace c0)
    as (Hh & Hm & _ & Hl).
  pose proof (count_outcome_total (replay c0 trace).2) as Ht.
  cbv zeta in *. simpl in Hh, Hm. lia.
Qed.

(** X26.  Every access of a run from construction is counted once as a
    hit, as a miss or as dropped: the hit counter, the miss counter and the
    number of dropped accesses add up to the number of accesses. *)
Theorem hits_misses_dropped_total (cs bs wp : Z)
    (trace : list (mode * string)) (c : Cache) (os : list outcome) :
  simulate cs bs wp trace = Some (c, os) →
  hits c + misses c + count_outcome MissDropped os
  = Z.of_nat (length trace).
Proof. apply replay_accounting. Qed.

(** Where a block of the cache after an access comes from: it is the new
    block of the access, or the slot held a block of the same tag and valid
    flag before. *)
Lemma access_block_origin (c : Cache) (m : mode) (address : string)
    (i : nat) (b' : Block) :
  blocks (access c m address).1 !! i = Some (Some b') →
  (valid b' = 1 ∧ tag b' = address_tag address) ∨
  ∃ b, blocks c !! i = Some (Some b) ∧ valid b = valid b' ∧ tag b = tag b'.
Proof.
  destruct m; unfold Sim.access, Sim.readFromCache, Sim.writeToCache;
    cbv zeta;
    destruct (scan (tag_match _) _ _ _) as [j|] eqn:Hhit;
    try destruct (scan is_null _ _ _) as [k|] eqn:Hfree; simpl;
    try (intros Hb; right; by exists b').
  - intros Hb.
    apply list_lookup_insert_Some in Hb as [(_ & [= <-] & _)|(_ & Hb)];
      [by left | right; by exists b'].
  - intros Hb. right.
    apply mark_dirty_lookup in Hb as (b & Hb & Hv & Ht).
    exists b. by destruct (write_policy c =? 0).
  - intros Hb.
    apply list_lookup_insert_Some in Hb as [(_ & [= <-] & _)|(_ & Hb)];
      [by left | right; by exists b'].
Qed.

Lemma access_within (l : list string) (c : Cache) (m : mode)
    (address : string) :
  tags_within l c → address_tag address ∈ l →
  (access c m address).2 ≠ MissDropped ∧
  tags_within l (access c m address).1.
Proof.
  intros (Hwf & Hu & Hlen & Hin) Ht. split.
  - intros Hdrop.
    apply (outcome_by_residency TAG INDEX OFFSET c m address Hwf)
      in Hdrop as [Hnot Hfull].
    assert (∀ i slot, blocks c !! i = Some slot →
              ∃ b, slot = Some b) as Hocc.
    { intros i [b|] Hi; [by exists b|]. by destruct (Hfull i). }
    assert (NoDup (address_tag address :: slot_tags c)) as Hnodup.
    { apply NoDup_cons. split.
      - intros (i & Hi)%list_elem_of_lookup. unfold slot_tags in Hi.
        rewrite list_lookup_fmap in Hi.
        destruct (blocks c !! i) as [slot|] eqn:Hslot; [|done].
        destruct (Hocc i slot Hslot) as [b ->]. simpl in Hi.
        injection Hi as Hi. apply Hnot. exists i, b.
        repeat split; [done| |done]. by apply (Hin i b).
      - apply NoDup_alt. intros i j t Hi Hj. unfold slot_tags in Hi, Hj.
        rewrite list_lookup_fmap in Hi. rewrite list_lookup_fmap in Hj.
        destruct (blocks c !! i) as [si|] eqn:Hsi; [|done].
        destruct (blocks c !! j) as [sj|] eqn:Hsj; [|done].
        destruct (Hocc i si Hsi) as [bi ->].
        destruct (Hocc j sj Hsj) as [bj ->]. simpl in Hi, Hj.
        injection Hi as Hi. injection Hj as Hj.
        apply (Hu i j bi bj); [done|done| | |congruence].
        + by apply (Hin i bi).
        + by apply (Hin j bj). }
    assert (address_tag address :: slot_tags c ⊆+ l) as Hsub.
    { apply NoDup_submseteq; [done|].
      intros t [->|Ht']%elem_of_cons; [done|].
      apply list_elem_of_lookup in Ht' as (i & Hi). unfold slot_tags in Hi.
      rewrite list_lookup_fmap in Hi.
      destruct (blocks c !! i) as [slot|] eqn:Hslot; [|done].
      destruct (Hocc i slot Hslot) as [b ->]. simpl in Hi.
      injection Hi as <-. by apply (Hin i b). }
    apply submseteq_length in Hsub. simpl in Hsub.
    unfold slot_tags in Hsub. rewrite length_map in Hsub. lia.
  - split; [by apply access_wf|]. split; [by apply access_unique|].
    pose proof (access_effect TAG INDEX OFFSET c m address)
      as (_ & _ & _ & _ & _ & _ & _ & Hl).
    cbv zeta in Hl. split; [lia|].
    intros i b' Hb'.
    apply access_block_origin in Hb' as [[Hv Htag]|(b & Hb & Hv & Htag)].
    + split; [done|]. by rewrite Htag.
    + destruct (Hin i b Hb) as [Hv' Ht']. split; congruence.
Qed.

Lemma replay_within (l : list string) (trace : list (mode * string))
    (c : Cache) :
  tags_within l c →
  (∀ m address, (m, address) ∈ trace → address_tag address ∈ l) →
  count_outcome MissDropped (replay c trace).2 = 0.
Proof.
  revert c. induction trace as [|[m address] rest IH]; intros c Hc Hl;
    [done|].
  rewrite replay_cons. cbn [snd count_outcome].
  destruct (access_within l c m address Hc) as [Hkept Hc1].
  { apply (Hl m). by left. }
  rewrite IH; [|done|].
  - by destruct (decide ((access c m address).2 = MissDropped)).
  - intros m' a' Hin. apply (Hl m'). by right.
Qed.

(** X27.  When the tags of all the addresses of a trace are among a list
    of tags no longer than the cache has lines, no access of the run from
    construction is dropped, and the hit and miss counters add up to the
    number of accesses. *)
Theorem nothing_dropped_when_tags_fit (cs bs wp : Z)
    (trace : list (mode * string)) (c : Cache) (os : list outcome)
    (l : list string) :
  simulate cs bs wp trace = Some (c, os) →
  (∀ m address, (m, address) ∈ trace → address_tag address ∈ l) →
  Z.of_nat (length l) ≤ cs / bs →
  count_outcome MissDropped os = 0 ∧
  hits c + misses c = Z.of_nat (length trace).
Proof.
  intros Hsim Hl Hfit.
  pose proof (replay_accounting _ _ _ _ _ _ Hsim) as Htotal.
  apply simulate_Some in Hsim as (c0 & Hc0 & -> & ->).
  assert (count_outcome MissDropped (replay c0 trace).2 = 0) as Hnone;
    [|lia].
  apply (replay_within l); [|done].
  pose proof (createCache_wf _ _ _ _ Hc0) as Hwf.
  pose proof (createCache_unique _ _ _ _ Hc0) as Hu.
  apply createCache_Some in Hc0 as (Hcs & Hbs & _ & ->).
  split; [done|]. split; [done|]. split.
  - simpl. rewrite length_replicate, Z.quot_div_nonneg by lia. lia.
  - simpl. intros i b Hb. apply lookup_replicate in Hb as [? _]. done.
Qed.

End Capacity.

Lemma htoi_zero_fill_witness :
  htoi "0x1g2 " = hex_value 0 "001020".
Proof. apply (htoi_zero_fill "0x1g2 "). reflexivity. Defined.

Lemma hits_misses_dropped_total_witness :
  ∃ (c : Cache) (os : list outcome),
    simulate 18 12 2 8 4 0 sample_trace = Some (c, os)
    ∧ hits c + misses c + count_outcome MissDropped os
      = Z.of_nat (length sample_trace).
Proof.
  eexists _, _. split.
  - vm_compute. reflexivity.
  - refine (hits_misses_dropped_total 18 12 2 8 4 0 sample_trace _ _ _).
    vm_compute. reflexivity.
Defined.

Lemma nothing_dropped_when_tags_fit_witness :
  ∃ (c : Cache) (os : list outcome),
    simulate 18 12 2 20 4 0 sample_trace = Some (c, os)
    ∧ count_outcome MissDropped os = 0
    ∧ hits c + misses c = Z.of_nat (length sample_trace).
Proof.
  eexists _, _. split.
  - vm_compute. reflexivity.
  - refine (nothing_dropped_when_tags_fit 18 12 2 20 4 0 sample_trace _ _
              (map (λ e, address_tag 18 12 2 e.2) sample_trace) _ _ _).
    + vm_compute. reflexivity.
    + intros m address Hin.
      apply (list_elem_of_fmap_2 (λ e, address_tag 18 12 2 e.2) _ _ Hin).
    + vm_compute. discriminate.
Defined.
